(** * FalseMarkets-Trading: the SMA-crossover backtest and the evolution
    step, shallowly embedded over the reals.

    Numbers of the TypeScript source ([number]) are modelled as exact reals
    [R]; IEEE rounding is modelled only where a result depends on it: the
    result of [Math.tanh] is rounded to binary64, and the SMAs and the cross
    detection are also given over primitive floats (module [IEEE]).
    [Math.round], [Math.floor], [Math.ceil] and [Number.prototype.toFixed]
    are written out with [Int_part] (the floor of the Standard Library). *)

From Stdlib Require Import String Reals Lra Lia ZArith List Permutation Sorted.
From Stdlib Require Floats.
Import ListNotations.
Open Scope R_scope.
Open Scope bool_scope.

(* ------------------------------------------------------------------ *)
(** ** JavaScript numeric helpers *)

Definition Rltb (x y : R) : bool := if Rlt_dec x y then true else false.
Definition Rleb (x y : R) : bool := if Rle_dec x y then true else false.

(** [Math.floor] *)
Definition Math_floor (x : R) : Z := Int_part x.
(** [Math.round]: nearest integer, ties towards +infinity. *)
Definition Math_round (x : R) : Z := Int_part (x + / 2).
(** [Math.ceil] *)
Definition Math_ceil (x : R) : Z := (- Int_part (- x))%Z.

(** [+x.toFixed(d)]: the sign is set apart, the magnitude is rounded to [d]
    decimals with ties away from zero, and the string is read back. *)
Definition toFixed (d : nat) (x : R) : R :=
  let m := 10 ^ d in
  if Rltb x 0 then - (IZR (Int_part (- x * m + / 2)) / m)
  else IZR (Int_part (x * m + / 2)) / m.

(** Rounding of a real to the nearest integer, ties to even. *)
Definition round_half_even (x : R) : Z :=
  let f := Int_part x in
  let r := x - IZR f in
  if Rltb r (/ 2) then f
  else if Rltb (/ 2) r then (f + 1)%Z
  else if Z.even f then f else (f + 1)%Z.

(** [floor(log2 |y|)], not below the least normal exponent [-1022]. *)
Definition binary64_exponent (y : R) : Z :=
  Z.max (-1022) (Int_part (ln (Rabs y) / ln 2)).

(** The binary64 double nearest to [y] (53-bit significand, ties to even);
    overflow is not modelled, the values rounded here lie in [[-1, 1]]. *)
Definition round_binary64 (y : R) : R :=
  if Req_dec_T y 0 then 0
  else let ulp := powerRZ 2 (binary64_exponent y - 52) in
       IZR (round_half_even (y / ulp)) * ulp.

(** [Math.tanh]: the double nearest to the hyperbolic tangent.  Once
    [tanh x] is within half an ulp of [1] (for [x] above about 19.06) the
    result is exactly [1]. *)
Definition Math_tanh (x : R) : R := round_binary64 (tanh x).

(* ------------------------------------------------------------------ *)
(** ** Symbol table *)

(** Modelled from the spec: the symbol table [TOP_15] of [lib/priceData.ts]
    (absent from the sources) is "a symbol table mapping assetIndex ->
    symbol -> display label".  Neither the spec nor the sources fix its
    size: [backtest.ts] speaks of 28 tokens, [data/types.ts] of 25.  The
    entries below are the 28 symbols of the repository's price data
    ([TICKER_MAP] of [scripts/preprocess-prices.mjs]).  The theorems below
    do not depend on the table; their instances use its first entry, BTC. *)
Definition TOP_15 : list string :=
  ["BTC"; "ETH"; "DOGE"; "XRP"; "LTC"; "XLM"; "XMR"; "ADA"; "BCH"; "LINK";
   "ATOM"; "ETC"; "ZEC"; "DASH"; "EOS"; "XTZ"; "QTUM"; "WAVES"; "BAT"; "ICX";
   "LSK"; "MLN"; "NANO"; "OMG"; "PAXG"; "REP"; "SC"; "GNO"]%string.

(** Modelled from the spec: [SYMBOL_LABEL] of [lib/priceData.ts]; every
    configured symbol is its own display label. *)
Definition SYMBOL_LABEL (sym : string) : option string :=
  if existsb (String.eqb sym) TOP_15 then Some sym else None.

(* ------------------------------------------------------------------ *)
(** ** Genome decoders ([backtest.ts], lines 59-77) *)

Definition decodeFastMA (v : R) : Z := Z.max 5 (Math_round (5 + v * 45)).

Definition decodeSlowMA (v : R) : Z := Z.max 20 (Math_round (20 + v * 180)).

Definition decodeAssetIdx (v : R) : Z := Z.min 27 (Z.max 0 (Math_round (v * 27))).

(** [TOP_15[i]]; [None] is JavaScript's [undefined]. *)
Definition assetSymbol (assetIdxV : R) : option string :=
  let i := decodeAssetIdx assetIdxV in
  if (i <? 0)%Z then None else nth_error TOP_15 (Z.to_nat i).

(* ------------------------------------------------------------------ *)
(** ** Types ([backtest.ts], lines 108-139) *)

Record OHLCVBar := mkBar {
  date : string; open : R; high : R; low : R; close : R; volume : R }.

Inductive action := entry | exit.

Definition action_eqb (a b : action) : bool :=
  match a, b with entry, entry | exit, exit => true | _, _ => false end.

Record TradeSignal := mkSignal {
  sig_date : string; sig_price : R; sig_action : action; sig_exposure : R }.

Record BacktestResult := mkResult {
  totalReturn : R; sharpe : R; maxDrawdown : R; winRate : R; trades : nat;
  fitness : R; equityCurve : list (string * R); tradeSignals : list TradeSignal;
  fastPeriod : Z; slowPeriod : Z; asset : string }.

(* ------------------------------------------------------------------ *)
(** ** SMA via prefix sums ([computeSMA], lines 96-104) *)

Fixpoint prefix_from (acc : R) (ps : list R) : list R :=
  match ps with
  | [] => []
  | p :: ps' => (acc + p) :: prefix_from (acc + p) ps'
  end.

(** The [Float64Array] [prefix] of length [n + 1]. *)
Definition prefix (prices : list R) : list R := 0 :: prefix_from 0 prices.

Definition computeSMA (prices : list R) (period : Z) : list (option R) :=
  let pre := prefix prices in
  map (fun i =>
         if (Z.of_nat i <? period - 1)%Z then None
         else Some ((nth (i + 1) pre 0 - nth (i + 1 - Z.to_nat period) pre 0)
                    / IZR period))
      (seq 0 (length prices)).

(** *** The SMAs and the cross detection over IEEE binary64

    The JavaScript numbers of [computeSMA] and of the cross detection of
    [runBacktest] (lines 200-220) as primitive binary64 floats: the running
    sum is rounded after every addition, as in the [Float64Array].  The
    detected actions depend only on the two SMA arrays, not on the cash or
    position of the loop. *)
Module IEEE.
Import Floats.

Fixpoint prefix_from (acc : float) (ps : list float) : list float :=
  match ps with
  | [] => []
  | p :: ps' => PrimFloat.add acc p :: prefix_from (PrimFloat.add acc p) ps'
  end.

Definition prefix (prices : list float) : list float := 0%float :: prefix_from 0%float prices.

Definition computeSMA (prices : list float) (period : Z) : list (option float) :=
  let pre := prefix prices in
  map (fun i =>
         if (Z.of_nat i <? period - 1)%Z then None
         else Some (PrimFloat.div
                      (PrimFloat.sub (nth (i + 1) pre 0%float)
                                     (nth (i + 1 - Z.to_nat period) pre 0%float))
                      (PrimFloat.of_uint63 (Uint63.of_Z period))))
      (seq 0 (length prices)).

(** The actions pushed to [tradeSignals], bar by bar, with [prevFSMA] and
    [prevSSMA] threaded through. *)
Fixpoint cross_actions (fastSMA slowSMA : list (option float))
    (prevFSMA prevSSMA : option float) : list action :=
  match fastSMA, slowSMA with
  | fo :: fs, so :: ss =>
      match fo, so with
      | Some f, Some s =>
          let pushed :=
            match prevFSMA, prevSSMA with
            | Some pf, Some ps =>
                if (PrimFloat.ltb s f && PrimFloat.leb pf ps)%bool then [entry]
                else if (PrimFloat.leb f s && PrimFloat.ltb ps pf)%bool then [exit]
                else []
            | _, _ => []
            end in
          pushed ++ cross_actions fs ss (Some f) (Some s)
      | _, _ => cross_actions fs ss fo so
      end
  | _, _ => []
  end.

Definition signal_actions (closes : list float) (fastP slowP : Z) : list action :=
  cross_actions (computeSMA closes fastP) (computeSMA closes slowP) None None.

(** The double nearest to [0.1]. *)
Definition tenth : float := 0x1.999999999999ap-4%float.

End IEEE.

(* ------------------------------------------------------------------ *)
(** ** Fitness formula ([computeFitness], lines 315-328) *)

Definition computeFitness (sharpe totalReturnPct winRatePct maxDrawdownPct : R) : R :=
  let sNorm := (Rmin (Rmax sharpe (-2)) 4 + 2) / 6 in
  let rNorm := (Rmin (Rmax totalReturnPct (-50)) 150 + 50) / 200 in
  let wNorm := winRatePct / 100 in
  let dNorm := 1 - Rmin (Rmax maxDrawdownPct 0) 60 / 60 in
  let raw := 0.40 * sNorm + 0.30 * rNorm + 0.20 * wNorm + 0.10 * dNorm in
  toFixed 1 (Rmin (Rmax raw 0) 1 * 100).

(* ------------------------------------------------------------------ *)
(** ** The simulation loop ([runBacktest], lines 161-265) *)

(** The mutable locals of [runBacktest] that the loop updates. *)
Record bt_state := mkState {
  cash : R; position : R; currentExposure : R; entryEquity : R;
  wins : nat; losses : nat;
  st_equityCurve : list (string * R); st_tradeSignals : list TradeSignal;
  dailyReturns : list R; prevFSMA : option R; prevSSMA : option R;
  peak : R; maxDD : R }.

Definition init_state (initialCapital : R) : bt_state :=
  mkState initialCapital 0 0 0 0 0 [] [] [] None None initialCapital 0.

(** Target exposure (lines 223-227). *)
Definition targetExposure (riskAversion fSMA sSMA : R) : R :=
  if Rltb sSMA fSMA then
    let sigma := (fSMA - sSMA) / sSMA in
    (1 - riskAversion) * Math_tanh (sigma * 15) * 0.99
  else 0.

(** Golden / death cross detection (lines 211-218). *)
Definition detect_cross (riskAversion : R) (bar : OHLCVBar)
    (prevF prevS : option R) (fSMA sSMA : R) (signals : list TradeSignal)
    : list TradeSignal :=
  match prevF, prevS with
  | Some pf, Some ps =>
      if (Rltb sSMA fSMA && Rleb pf ps)%bool then
        let tgt := (1 - riskAversion) * Math_tanh ((fSMA - sSMA) / sSMA * 15) * 0.99 in
        signals ++ [mkSignal (date bar) (close bar) entry (toFixed 4 tgt)]
      else if (Rleb fSMA sSMA && Rltb ps pf)%bool then
        signals ++ [mkSignal (date bar) (close bar) exit 0]
      else signals
  | _, _ => signals
  end.

(** Rebalancing (lines 232-264), on a state whose bookkeeping fields for
    this bar are already updated. *)
Definition rebalance (equity price targetExposure : R) (st : bt_state) : bt_state :=
  let targetPositionDollar := equity * targetExposure in
  let targetUnits := targetPositionDollar / price in
  let delta := targetUnits - position st in
  let '(cash', position', entryEquity', wins', losses') :=
    if Rltb 0 delta then
      let cost := Rmin (delta * price) (cash st) in
      let actualUnits := cost / price in
      let entryEquity' :=
        if Req_dec_T (currentExposure st) 0 then equity else entryEquity st in
      (cash st - cost, position st + actualUnits, entryEquity', wins st, losses st)
    else if Rltb delta 0 then
      let actualUnits := Rmin (Rabs delta) (position st) in
      let proceeds := actualUnits * price in
      let position1 := position st - actualUnits in
      let cash1 := cash st + proceeds in
      if Rltb (position1 * price) (equity * 0.005) then
        let exitEquity := cash1 + position1 * price in
        let '(w, l) := if Rltb (entryEquity st) exitEquity
                       then (S (wins st), losses st) else (wins st, S (losses st)) in
        (exitEquity, 0, entryEquity st, w, l)
      else (cash1, position1, entryEquity st, wins st, losses st)
    else (cash st, position st, entryEquity st, wins st, losses st) in
  mkState cash' position' (position' * price / Rmax equity 1) entryEquity'
    wins' losses' (st_equityCurve st) (st_tradeSignals st) (dailyReturns st)
    (prevFSMA st) (prevSSMA st) (peak st) (maxDD st).

(** One iteration of the [for] loop, at bar index [i], with the bar and the
    two SMA values [fastSMA[i]], [slowSMA[i]]. *)
Definition bt_step (riskAversion initialCapital : R) (i : nat) (st : bt_state)
    (x : OHLCVBar * option R * option R) : bt_state :=
  let '(bar, fo, so) := x in
  let price := close bar in
  let equity := cash st + position st * price in
  let dailyReturns' :=
    if (0 <? i)%nat then
      let prevEquity :=
        match rev (st_equityCurve st) with
        | (_, e) :: _ => e
        | [] => initialCapital
        end in
      dailyReturns st ++ [(equity - prevEquity) / prevEquity]
    else dailyReturns st in
  let equityCurve' := st_equityCurve st ++ [(date bar, toFixed 2 equity)] in
  let peak' := if Rltb (peak st) equity then equity else peak st in
  let dd := if Rltb 0 peak' then (peak' - equity) / peak' * 100 else 0 in
  let maxDD' := if Rltb (maxDD st) dd then dd else maxDD st in
  match fo, so with
  | Some fSMA, Some sSMA =>
      let signals' := detect_cross riskAversion bar (prevFSMA st) (prevSSMA st)
                        fSMA sSMA (st_tradeSignals st) in
      let st1 := mkState (cash st) (position st) (currentExposure st)
                   (entryEquity st) (wins st) (losses st) equityCurve' signals'
                   dailyReturns' (Some fSMA) (Some sSMA) peak' maxDD' in
      let tgt := targetExposure riskAversion fSMA sSMA in
      if Rleb (Rabs (tgt - currentExposure st)) 0.01 then st1
      else rebalance equity price tgt st1
  | _, _ =>
      mkState (cash st) (position st) (currentExposure st) (entryEquity st)
        (wins st) (losses st) equityCurve' (st_tradeSignals st) dailyReturns'
        fo so peak' maxDD'
  end.

Fixpoint bt_loop (riskAversion initialCapital : R) (i : nat)
    (xs : list (OHLCVBar * option R * option R)) (st : bt_state) : bt_state :=
  match xs with
  | [] => st
  | x :: xs' => bt_loop riskAversion initialCapital (S i) xs'
                  (bt_step riskAversion initialCapital i st x)
  end.

(** No two neighbours of the list are the same action. *)
Fixpoint alternating (l : list action) : bool :=
  match l with
  | a :: ((b :: _) as t) => negb (action_eqb a b) && alternating t
  | _ => true
  end.

(** Periods after the degenerate-genome correction (lines 152-155). *)
Definition bt_periods (fastMAv slowMAv : R) : Z * Z :=
  let fastP := decodeFastMA fastMAv in
  let slowP := decodeSlowMA slowMAv in
  if (fastP >=? slowP)%Z
  then (fastP, fastP + Z.max 10 (Math_ceil (IZR fastP * 0.25)))%Z
  else (fastP, slowP).

(** The loop input: every bar with its two SMA values. *)
Definition bt_inputs (bars : list OHLCVBar) (fastP slowP : Z)
    : list (OHLCVBar * option R * option R) :=
  let closes := map close bars in
  combine (combine bars (computeSMA closes fastP)) (computeSMA closes slowP).

Definition sum_list (xs : list R) : R := fold_left (fun s r => s + r) xs 0.

(** Annualised Sharpe ratio (lines 271-278). *)
Definition sharpe_of (rs : list R) : R :=
  let n := length rs in
  if (2 <? n)%nat then
    let mean := sum_list rs / INR n in
    let variance := fold_left (fun s r => s + (r - mean) ^ 2) rs 0 / INR n in
    let std := sqrt variance in
    if Rltb 0 std then mean / std * sqrt 252 else 0
  else 0.

(** Walk-forward consistency penalty (lines 289-294). *)
Definition consistencyPenalty (year2Ret : R) : R :=
  if Rltb year2Ret (-0.20) then 0.50
  else if Rltb year2Ret (-0.05) then 0.75
  else 1.0.

Definition midEquity_of (initialCapital : R) (curve : list (string * R)) : R :=
  match nth_error curve (length curve / 2) with
  | Some (_, e) => e
  | None => initialCapital
  end.

Definition year2Ret_of (finalEquity midEquity : R) : R :=
  if Rltb 0 midEquity then (finalEquity - midEquity) / midEquity else 0.

(** The loop run over all bars, from the initial locals (lines 152-265). *)
Definition bt_final (bars : list OHLCVBar)
    (fastMAv slowMAv riskAversion initialCapital : R) : bt_state :=
  let '(fastP, slowP) := bt_periods fastMAv slowMAv in
  bt_loop riskAversion initialCapital 0 (bt_inputs bars fastP slowP)
    (init_state initialCapital).

(** [cash + position * closes[closes.length - 1]] (line 267). *)
Definition finalEquity_of (bars : list OHLCVBar) (st : bt_state) : R :=
  cash st + position st * last (map close bars) 0.

Definition totalReturn_of (initialCapital finalEquity : R) : R :=
  (finalEquity - initialCapital) / initialCapital * 100.

Definition winRate_of (st : bt_state) : R :=
  let totalTrades := (wins st + losses st)%nat in
  if (0 <? totalTrades)%nat then INR (wins st) / INR totalTrades * 100 else 0.

(** [baseFitness] (line 283). *)
Definition baseFitness_of (bars : list OHLCVBar) (initialCapital : R)
    (st : bt_state) : R :=
  computeFitness (sharpe_of (dailyReturns st))
    (totalReturn_of initialCapital (finalEquity_of bars st))
    (winRate_of st) (maxDD st).

Definition runBacktest (bars : list OHLCVBar)
    (fastMAv slowMAv riskAversion initialCapital : R) : option BacktestResult :=
  if (length bars <? 50)%nat then None else
  let '(fastP, slowP) := bt_periods fastMAv slowMAv in
  let st := bt_final bars fastMAv slowMAv riskAversion initialCapital in
  let finalEquity := finalEquity_of bars st in
  let totalReturn := totalReturn_of initialCapital finalEquity in
  let sharpe := sharpe_of (dailyReturns st) in
  let baseFitness := baseFitness_of bars initialCapital st in
  let midEquity := midEquity_of initialCapital (st_equityCurve st) in
  let year2Ret := year2Ret_of finalEquity midEquity in
  let fitness := toFixed 1 (baseFitness * consistencyPenalty year2Ret) in
  let asset :=
    match option_map SYMBOL_LABEL (nth_error TOP_15 0) with
    | Some (Some l) => l
    | _ => "BTC"%string
    end in
  Some (mkResult (toFixed 2 totalReturn) (toFixed 3 sharpe) (toFixed 2 (maxDD st))
          (toFixed 1 (winRate_of st)) (wins st + losses st) fitness
          (st_equityCurve st) (st_tradeSignals st) fastP slowP asset).

(* ------------------------------------------------------------------ *)
(** ** Agents ([data/types.ts]) *)

Inductive Status := active | extinct | breeding | newborn.

Inductive Archetype := momentum | defensive | volatility | mean_reversion | hybrid.

Record SMAGenome := mkGenome {
  fastMA : R; slowMA : R; riskAversion : R; assetIdx : R }.

Module Agent.
(** An [AgentGenome]; the id ["AGT-nnn"] is kept as its number [nnn]
    (what [parseInt(a.id.replace("AGT-", ""))] reads back). *)
Record AgentGenome := mkAgent {
  id : Z; name : string; generation : Z; fitness : R; status : Status;
  archetype : Archetype; sharpe : R; maxDrawdown : R; winRate : R;
  totalReturn : R; trades : nat; parentIds : list Z; genome : SMAGenome }.
End Agent.

Import Agent (AgentGenome, mkAgent).

Definition with_status (a : AgentGenome) (s : Status) : AgentGenome :=
  mkAgent (Agent.id a) (Agent.name a) (Agent.generation a) (Agent.fitness a) s
    (Agent.archetype a) (Agent.sharpe a) (Agent.maxDrawdown a) (Agent.winRate a)
    (Agent.totalReturn a) (Agent.trades a) (Agent.parentIds a) (Agent.genome a).

(** [{ ...agent, fitness: r.fitness, sharpe: +r.sharpe.toFixed(2), ... }] *)
Definition apply_result (a : AgentGenome) (r : BacktestResult) : AgentGenome :=
  mkAgent (Agent.id a) (Agent.name a) (Agent.generation a) (fitness r)
    (Agent.status a) (Agent.archetype a) (toFixed 2 (sharpe r))
    (toFixed 1 (maxDrawdown r)) (toFixed 1 (winRate r)) (toFixed 1 (totalReturn r))
    (trades r) (Agent.parentIds a) (Agent.genome a).

Definition is_extinct (a : AgentGenome) : bool :=
  match Agent.status a with extinct => true | _ => false end.

(** [archetypeFromGenome] ([backtest.ts], lines 80-92). *)
Definition archetypeFromGenome (fastMAv slowMAv : R) : Archetype :=
  let f := decodeFastMA fastMAv in
  let s := decodeSlowMA slowMAv in
  let spread := (s - f)%Z in
  if ((f <=? 10)%Z && (spread <=? 25)%Z)%bool then momentum
  else if (s >=? 130)%Z then defensive
  else if (spread <=? 15)%Z then volatility
  else if ((f >=? 25)%Z && (s >=? 80)%Z)%bool then mean_reversion
  else hybrid.

(* ------------------------------------------------------------------ *)
(** ** Random draws and exceptions

    [M A] threads the number of [Math.random()] calls made so far; [None]
    is a thrown exception (a [TypeError]). *)

Definition M (A : Type) : Type := nat -> option (A * nat).

Definition ret {A} (x : A) : M A := fun k => Some (x, k).

Definition bind {A B} (m : M A) (f : A -> M B) : M B :=
  fun k => match m k with Some (x, k') => f x k' | None => None end.

Definition throw {A} : M A := fun _ => None.

Notation "x <- m ; f" := (bind m (fun x => f)) (at level 61, m at next level, right associativity).

Fixpoint mapM {A B} (step : A -> M B) (xs : list A) : M (list B) :=
  match xs with
  | nil => ret nil
  | x :: rest => y <- step x; ys <- mapM step rest; ret (y :: ys)
  end.

(** [xs[i]] for an integer index; [None] is [undefined]. *)
Definition js_index {A} (xs : list A) (i : Z) : option A :=
  if (i <? 0)%Z then None else nth_error xs (Z.to_nat i).

(** [xs.slice(-n)] for [n >= 1]. *)
Definition slice_last {A} (n : nat) (xs : list A) : list A :=
  skipn (length xs - n) xs.

Definition clamp01 (v : R) : R := Rmin 1 (Rmax 0 v).

Definition BREED_PREFIXES : list string :=
  ["Alpha";"Beta";"Gamma";"Delta";"Sigma";"Omega";"Apex";"Vega";"Rho";"Theta";
   "Nova";"Flux";"Prime";"Quant";"Edge";"Nexus";"Pulse";"Blaze";"Cipher";"Drift"]%string.

Definition BREED_SUFFIXES : list string :=
  ["Hunter";"Rider";"Surge";"Strike";"Hawk";"Wolf";"Storm";"Pulse";"Wave";"Blade";
   "Force";"Shift";"Crest";"Scout";"Guard";"Run";"Burst";"Fade";"Watch";"Climb"]%string.

Definition BACKTEST_BARS : nat := 730.

Definition lookup_bars (priceHistory : list (string * list OHLCVBar)) (sym : string)
    : option (list OHLCVBar) :=
  option_map snd (find (fun p => String.eqb (fst p) sym) priceHistory).

(** [backtestAgent] ([backtest.ts], lines 339-360). *)
Definition backtestAgent (agent : AgentGenome)
    (priceHistory : list (string * list OHLCVBar)) : option BacktestResult :=
  let g := Agent.genome agent in
  match assetSymbol (assetIdx g) with
  | None => None
  | Some sym =>
      match lookup_bars priceHistory sym with
      | None => None
      | Some allBars =>
          if (length allBars <? 50)%nat then None else
          let bars := slice_last BACKTEST_BARS allBars in
          match runBacktest bars (fastMA g) (slowMA g) (riskAversion g) 100000 with
          | None => None
          | Some r =>
              let lbl := match SYMBOL_LABEL sym with Some l => l | None => sym end in
              Some (mkResult (totalReturn r) (sharpe r) (maxDrawdown r) (winRate r)
                      (trades r) (fitness r) (equityCurve r) (tradeSignals r)
                      (fastPeriod r) (slowPeriod r) lbl)
          end
      end
  end.

(* ------------------------------------------------------------------ *)
(** ** One generation ([runGeneration] of the index page, lines 233-399)

    The persistence calls, toasts and post-mortems are left out, and the
    portfolio snapshot and trade log are modelled apart ([portfolio_step],
    [trade_log]); the outcome is the assembled population with the
    culled and the born agents of the generation summary. *)

(** [newResults]: the latest assignment to a key first. *)
Definition lookup_result (newResults : list (Z * BacktestResult)) (id : Z)
    : option BacktestResult :=
  option_map snd (find (fun p => Z.eqb (fst p) id) newResults).

Definition scored (newResults : list (Z * BacktestResult)) (a : AgentGenome) : bool :=
  match lookup_result newResults (Agent.id a) with Some _ => true | None => false end.

(** [aCount[asset]] *)
Definition asset_count (backtested : list AgentGenome)
    (newResults : list (Z * BacktestResult)) (asset' : string) : nat :=
  length (filter (fun a => match lookup_result newResults (Agent.id a) with
                           | Some r => String.eqb (asset r) asset'
                           | None => false end) backtested).

(** [n = backtested.filter(a => newResults[a.id]).length || 1] *)
Definition scored_n (backtested : list AgentGenome)
    (newResults : list (Z * BacktestResult)) : nat :=
  match length (filter (scored newResults) backtested) with
  | O => 1
  | n => n
  end.

Definition niche_share (backtested : list AgentGenome)
    (newResults : list (Z * BacktestResult)) (asset' : string) : R :=
  INR (asset_count backtested newResults asset') / INR (scored_n backtested newResults).

(** [share > 0.40 ? Math.min(0.25, ((share - 0.40) / 0.60) * 0.25) : 0] *)
Definition niche_penalty (share : R) : R :=
  if Rltb 0.40 share then Rmin 0.25 ((share - 0.40) / 0.60 * 0.25) else 0.

Definition nicheSelectFitness (backtested : list AgentGenome)
    (newResults : list (Z * BacktestResult)) (a : AgentGenome) : R :=
  match lookup_result newResults (Agent.id a) with
  | None => Agent.fitness a
  | Some r =>
      let share := niche_share backtested newResults (asset r) in
      Agent.fitness a * (1 - niche_penalty share)
  end.

(** [[...xs].sort((a, b) => key(b) - key(a))]: a stable sort, by
    descending key. *)
Fixpoint insert_desc {A} (key : A -> R) (x : A) (l : list A) : list A :=
  match l with
  | [] => [x]
  | y :: l' => if Rltb (key y) (key x) then x :: y :: l' else y :: insert_desc key x l'
  end.

Definition sort_desc {A} (key : A -> R) (l : list A) : list A :=
  fold_left (fun acc x => insert_desc key x acc) l [].

Definition cull_count (n : nat) : Z := Z.max 1 (Math_floor (INR n * 0.20)).

Definition breed_count (n : nat) : Z := Z.max 2 (Math_floor (INR n * 0.30)).

Definition maxId_of (agents : list AgentGenome) : Z :=
  fold_left Z.max (map Agent.id agents) 0%Z.

Inductive GenOutcome :=
  | price_data_not_loaded
  | generation_failed
  | completed (allNext culled born : list AgentGenome).

Section Evolution.

(** [rng k]: the value of the [k]-th call of [Math.random()]. *)
Variable rng : nat -> R.

Definition random : M R := fun k => Some (rng k, S k).

Definition MUT : R := 0.12.

Definition blend (a b : R) : M R :=
  r1 <- random; r2 <- random;
  ret (clamp01 (a + (b - a) * r1 + (r2 - 0.5) * 2 * MUT)).

(** [crossoverMutate] ([backtest.ts], lines 376-399). *)
Definition crossoverMutate (p1 p2 : SMAGenome) : M SMAGenome :=
  u <- random;
  assetIdx' <- (if Rltb u 0.75
                then (u2 <- random; ret (if Rltb u2 0.5 then assetIdx p1 else assetIdx p2))
                else random);
  f <- blend (fastMA p1) (fastMA p2);
  s <- blend (slowMA p1) (slowMA p2);
  ra <- blend (riskAversion p1) (riskAversion p2);
  ret (mkGenome f s ra (clamp01 assetIdx')).

Definition pick {A} (xs : list A) : M (option A) :=
  r <- random; ret (js_index xs (Math_floor (r * INR (length xs)))).

(** The [i]-th element of [rawOffspring] (lines 278-294); reading
    [p1.genome] of an [undefined] parent throws. *)
Definition make_offspring (topBreed : list AgentGenome) (maxId currentGen : Z)
    (i : nat) : M AgentGenome :=
  p1 <- pick topBreed;
  p2 <- pick topBreed;
  match p1, p2 with
  | Some p1, Some p2 =>
      childGenome <- crossoverMutate (Agent.genome p1) (Agent.genome p2);
      let arch := archetypeFromGenome (fastMA childGenome) (slowMA childGenome) in
      px <- pick BREED_PREFIXES;
      sx <- pick BREED_SUFFIXES;
      let px := match px with Some s => s | None => "undefined"%string end in
      let sx := match sx with Some s => s | None => "undefined"%string end in
      ret (mkAgent (maxId + Z.of_nat i + 1) (px ++ " " ++ sx) (currentGen + 1) 50
             newborn arch 0 0 0 0 0 [Agent.id p1; Agent.id p2] childGenome)
  | _, _ => throw
  end.

Definition backtest_update (priceHistory : list (string * list OHLCVBar))
    (a : AgentGenome) : AgentGenome :=
  match backtestAgent a priceHistory with
  | Some r => apply_result a r
  | None => a
  end.

(** Steps 1-5 of [runGeneration]. *)
Definition generation_body (priceHistory : list (string * list OHLCVBar))
    (agents : list AgentGenome) (currentGen : Z) : M GenOutcome :=
  let active_agents := filter (fun a => negb (is_extinct a)) agents in
  let newResults :=
    rev (flat_map (fun a => match backtestAgent a priceHistory with
                            | Some r => [(Agent.id a, r)]
                            | None => [] end) active_agents) in
  let backtested := map (backtest_update priceHistory) active_agents in
  let sorted := sort_desc (nicheSelectFitness backtested newResults) backtested in
  let cullCount := cull_count (length sorted) in
  let bottom := slice_last (Z.to_nat cullCount) sorted in
  let topBreed := firstn (Z.to_nat (breed_count (length sorted))) sorted in
  let inCull := fun a => existsb (fun b => Z.eqb (Agent.id b) (Agent.id a)) bottom in
  let maxId := maxId_of agents in
  rawOffspring <- mapM (make_offspring topBreed maxId currentGen)
                    (seq 0 (Z.to_nat cullCount));
  let offspring := map (backtest_update priceHistory) rawOffspring in
  let survived :=
    map (fun a =>
           if inCull a then with_status a extinct
           else
             let st := match Agent.status a with newborn => active | s => s end in
             match find (fun b => Z.eqb (Agent.id b) (Agent.id a)) backtested with
             | Some bt => with_status bt st
             | None => with_status a st
             end) agents in
  ret (completed (survived ++ offspring) bottom offspring).

(** [runGeneration] from the first random draw: the early return when no
    price data is loaded, and the [catch] of the [try] block. *)
Definition runGeneration (priceHistory : list (string * list OHLCVBar))
    (agents : list AgentGenome) (currentGen : Z) : GenOutcome :=
  match priceHistory with
  | [] => price_data_not_loaded
  | _ =>
      match generation_body priceHistory agents currentGen 0%nat with
      | Some (o, _) => o
      | None => generation_failed
      end
  end.

End Evolution.

(* ================================================================== *)
(** * Properties *)

(* ------------------------------------------------------------------ *)
(** ** Floor and rounding *)

Lemma Int_part_bounds (r : R) : IZR (Int_part r) <= r < IZR (Int_part r) + 1.
Proof. destruct (base_Int_part r) as [H1 H2]. lra. Qed.

Lemma Int_part_IZR (z : Z) : Int_part (IZR z) = z.
Proof.
  unfold Int_part. rewrite <- (tech_up (IZR z) (z + 1)).
  - lia.
  - rewrite plus_IZR. lra.
  - rewrite plus_IZR. lra.
Qed.

Lemma Int_part_ge (r : R) (z : Z) : IZR z <= r -> (z <= Int_part r)%Z.
Proof.
  intros H. destruct (Int_part_bounds r) as [_ H2].
  assert (IZR z < IZR (Int_part r + 1)) by (rewrite plus_IZR; lra).
  apply lt_IZR in H0. lia.
Qed.

Lemma Int_part_le (r : R) (z : Z) : r < IZR z + 1 -> (Int_part r <= z)%Z.
Proof.
  intros H. destruct (Int_part_bounds r) as [H1 _].
  assert (IZR (Int_part r) < IZR (z + 1)) by (rewrite plus_IZR; lra).
  apply lt_IZR in H0. lia.
Qed.

Lemma Rltb_true (x y : R) : x < y -> Rltb x y = true.
Proof. unfold Rltb. destruct (Rlt_dec x y); [reflexivity | contradiction]. Qed.

Lemma Rltb_false (x y : R) : y <= x -> Rltb x y = false.
Proof. unfold Rltb. destruct (Rlt_dec x y); [lra | reflexivity]. Qed.

Lemma Rleb_true (x y : R) : x <= y -> Rleb x y = true.
Proof. unfold Rleb. destruct (Rle_dec x y); [reflexivity | contradiction]. Qed.

Lemma Rleb_false (x y : R) : y < x -> Rleb x y = false.
Proof. unfold Rleb. destruct (Rle_dec x y); [lra | reflexivity]. Qed.

Lemma toFixed_1_range (x : R) : 0 <= x <= 100 -> 0 <= toFixed 1 x <= 100.
Proof.
  intros [H0 H1]. unfold toFixed. rewrite Rltb_false by lra. simpl.
  assert (Hlo : (0 <= Int_part (x * (10 * 1) + / 2))%Z)
    by (apply Int_part_ge; simpl; lra).
  assert (Hhi : (Int_part (x * (10 * 1) + / 2) <= 1000)%Z)
    by (apply Int_part_le; lra).
  apply IZR_le in Hlo. apply IZR_le in Hhi.
  split; unfold Rdiv; nra.
Qed.


Lemma Int_part_eq (r : R) (z : Z) : IZR z <= r < IZR z + 1 -> Int_part r = z.
Proof. intros [H1 H2]. apply Z.le_antisymm; [apply Int_part_le | apply Int_part_ge]; lra. Qed.

Lemma Rmax_Rmin_01 (x : R) : 0 <= Rmin (Rmax x 0) 1 <= 1.
Proof.
  split.
  - apply Rmin_glb; [apply Rmax_r | lra].
  - apply Rmin_r.
Qed.

Ltac split_ifs :=
  repeat match goal with
         | |- context [if ?b then _ else _] => destruct b
         | |- context [let '(_, _) := ?p in _] => destruct p
         end.

(* ------------------------------------------------------------------ *)
(** ** Lengths through the loop *)

Lemma rebalance_curve (equity price tgt : R) (st : bt_state) :
  st_equityCurve (rebalance equity price tgt st) = st_equityCurve st.
Proof. unfold rebalance. split_ifs; reflexivity. Qed.

Lemma bt_step_curve_length ra init i st x :
  length (st_equityCurve (bt_step ra init i st x)) = S (length (st_equityCurve st)).
Proof.
  destruct x as [[bar fo] so]. unfold bt_step.
  destruct fo, so; simpl; try (rewrite length_app; simpl; lia).
  destruct (Rleb _ _); [| rewrite rebalance_curve]; simpl; rewrite length_app; simpl; lia.
Qed.

Lemma bt_loop_curve_length ra init xs : forall i st,
  length (st_equityCurve (bt_loop ra init i xs st)) = (length (st_equityCurve st) + length xs)%nat.
Proof.
  induction xs as [| x xs IH]; intros i st; simpl.
  - lia.
  - rewrite IH, bt_step_curve_length. lia.
Qed.

Lemma computeSMA_length prices p : length (computeSMA prices p) = length prices.
Proof. unfold computeSMA. rewrite length_map, length_seq. reflexivity. Qed.

Lemma bt_inputs_length bars f s : length (bt_inputs bars f s) = length bars.
Proof.
  unfold bt_inputs. rewrite !length_combine, !computeSMA_length, length_map. lia.
Qed.

Lemma bt_final_curve_length bars fv sv ra init :
  length (st_equityCurve (bt_final bars fv sv ra init)) = length bars.
Proof.
  unfold bt_final. destruct (bt_periods fv sv) as [f s].
  rewrite bt_loop_curve_length, bt_inputs_length. reflexivity.
Qed.

Lemma runBacktest_unfold bars fv sv ra init :
  (50 <= length bars)%nat ->
  runBacktest bars fv sv ra init =
  let st := bt_final bars fv sv ra init in
  let finalEquity := finalEquity_of bars st in
  Some (mkResult (toFixed 2 (totalReturn_of init finalEquity))
          (toFixed 3 (sharpe_of (dailyReturns st))) (toFixed 2 (maxDD st))
          (toFixed 1 (winRate_of st)) (wins st + losses st)
          (toFixed 1 (baseFitness_of bars init st *
                      consistencyPenalty (year2Ret_of finalEquity
                                            (midEquity_of init (st_equityCurve st)))))
          (st_equityCurve st) (st_tradeSignals st)
          (fst (bt_periods fv sv)) (snd (bt_periods fv sv)) "BTC"%string).
Proof.
  intros H. unfold runBacktest.
  destruct (Nat.ltb_spec (length bars) 50); [lia |].
  destruct (bt_periods fv sv) as [f s] eqn:E. reflexivity.
Qed.

Lemma runBacktest_None bars fv sv ra init :
  (length bars < 50)%nat -> runBacktest bars fv sv ra init = None.
Proof.
  intros H. unfold runBacktest. destruct (Nat.ltb_spec (length bars) 50); [reflexivity | lia].
Qed.

(* ------------------------------------------------------------------ *)
(** ** C6: the fitness formula is bounded *)

(** C6: for all (finite, i.e. real) metrics, [computeFitness] returns a value
    in [0, 100]. *)
Theorem computeFitness_range (sharpe totalReturnPct winRatePct maxDrawdownPct : R) :
  0 <= computeFitness sharpe totalReturnPct winRatePct maxDrawdownPct <= 100.
Proof.
  unfold computeFitness. apply toFixed_1_range.
  pose proof (Rmax_Rmin_01 (0.40 * ((Rmin (Rmax sharpe (-2)) 4 + 2) / 6) +
      0.30 * ((Rmin (Rmax totalReturnPct (-50)) 150 + 50) / 200) +
      0.20 * (winRatePct / 100) +
      0.10 * (1 - Rmin (Rmax maxDrawdownPct 0) 60 / 60))).
  lra.
Qed.

(* ------------------------------------------------------------------ *)
(** ** C7: fast period below slow period *)

(** C7: for every genome, the periods the simulator uses satisfy
    [fastPeriod < slowPeriod] after the correction
    [slowPeriod = fastPeriod + max(10, ceil(fastPeriod * 0.25))] applied when
    [fastPeriod >= slowPeriod]; the periods a backtest reports satisfy it. *)
Theorem bt_periods_fast_lt_slow (fastMAv slowMAv : R) :
  (fst (bt_periods fastMAv slowMAv) < snd (bt_periods fastMAv slowMAv))%Z /\
  (forall bars riskAversion initialCapital,
     match runBacktest bars fastMAv slowMAv riskAversion initialCapital with
     | Some r => (fastPeriod r < slowPeriod r)%Z
     | None => True
     end).
Proof.
  assert (Hp : (fst (bt_periods fastMAv slowMAv) < snd (bt_periods fastMAv slowMAv))%Z).
  { unfold bt_periods. destruct (Z.geb_spec (decodeFastMA fastMAv) (decodeSlowMA slowMAv));
      simpl; lia. }
  split; [exact Hp |].
  intros bars ra init.
  destruct (Nat.lt_ge_cases (length bars) 50) as [Hl | Hl].
  - rewrite runBacktest_None by exact Hl. exact I.
  - rewrite runBacktest_unfold by exact Hl. exact Hp.
Qed.

(* ------------------------------------------------------------------ *)
(** ** C5: the walk-forward consistency penalty *)






(* ------------------------------------------------------------------ *)
(** ** C8: the niche-crowding penalty *)

Lemma niche_penalty_nonneg (s : R) : 0 <= niche_penalty s <= 0.25.
Proof.
  unfold niche_penalty, Rltb. destruct (Rlt_dec 0.40 s); [| lra].
  split; [apply Rmin_glb; [lra |] | apply Rmin_l].
  apply Rmult_le_pos; [| lra]. unfold Rdiv. apply Rmult_le_pos; lra.
Qed.

Lemma niche_penalty_mono (s1 s2 : R) : s1 <= s2 -> niche_penalty s1 <= niche_penalty s2.
Proof.
  intros H. destruct (niche_penalty_nonneg s2) as [H2 _].
  unfold niche_penalty at 1, Rltb. destruct (Rlt_dec 0.40 s1) as [H1 | H1]; [| exact H2].
  unfold niche_penalty, Rltb. destruct (Rlt_dec 0.40 s2) as [_ | H3]; [| lra].
  apply Rmin_glb; [apply Rmin_l |].
  eapply Rle_trans; [apply Rmin_r |]. unfold Rdiv.
  apply Rmult_le_compat_r; [lra |]. apply Rmult_le_compat_r; lra.
Qed.

(** C8: for an agent [a] scored in this generation with a result on an asset
    of population share [share], the selection fitness is
    [storedFitness * (1 - penalty)], where the penalty is [0] for
    [share <= 0.40] and [min(0.25, (share - 0.40) / 0.60 * 0.25)] above; the
    penalty is non-decreasing in the share and never exceeds [0.25]. *)
Theorem nicheSelectFitness_penalty (backtested : list AgentGenome)
    (newResults : list (Z * BacktestResult)) (a : AgentGenome) (r : BacktestResult)
    (Hr : lookup_result newResults (Agent.id a) = Some r) :
  let share := niche_share backtested newResults (asset r) in
  nicheSelectFitness backtested newResults a = Agent.fitness a * (1 - niche_penalty share) /\
  (share <= 0.40 -> niche_penalty share = 0) /\
  (0.40 < share -> niche_penalty share = Rmin 0.25 ((share - 0.40) / 0.60 * 0.25)) /\
  (forall s1 s2, s1 <= s2 -> niche_penalty s1 <= niche_penalty s2) /\
  (forall s, 0 <= niche_penalty s <= 0.25).
Proof.
  intros share. split; [unfold nicheSelectFitness; rewrite Hr; reflexivity |].
  split; [intros H; unfold niche_penalty; rewrite Rltb_false by lra; reflexivity |].
  split; [intros H; unfold niche_penalty; rewrite Rltb_true by lra; reflexivity |].
  split; [exact niche_penalty_mono | exact niche_penalty_nonneg].
Qed.

(** A sample backtest result and agent, used to instantiate statements. *)
Definition sample_genome : SMAGenome := mkGenome 0 0 0 0.

Definition sample_result : BacktestResult :=
  mkResult 0 0 0 0 0 30.8 [] [] 5 20 "BTC".

Definition sample_agent (i : Z) (s : Status) : AgentGenome :=
  mkAgent i "Alpha Hunter" 0 30.8 s hybrid 0 0 0 0 0 [] sample_genome.

(** Ten active agents with ids 1 to 10. *)
Definition sample_population : list AgentGenome :=
  map (fun i => sample_agent (Z.of_nat i) active) (seq 1 10).

Lemma nicheSelectFitness_penalty_witness :
  lookup_result [(1%Z, sample_result)] 1 = Some sample_result /\
  let share := niche_share [sample_agent 1 active] [(1%Z, sample_result)] (asset sample_result) in
  nicheSelectFitness [sample_agent 1 active] [(1%Z, sample_result)] (sample_agent 1 active) =
    Agent.fitness (sample_agent 1 active) * (1 - niche_penalty share) /\
  (share <= 0.40 -> niche_penalty share = 0) /\
  (0.40 < share -> niche_penalty share = Rmin 0.25 ((share - 0.40) / 0.60 * 0.25)) /\
  (forall s1 s2, s1 <= s2 -> niche_penalty s1 <= niche_penalty s2) /\
  (forall s, 0 <= niche_penalty s <= 0.25).
Proof.
  split; [reflexivity |].
  apply (nicheSelectFitness_penalty [sample_agent 1 active] [(1%Z, sample_result)]
           (sample_agent 1 active) sample_result).
  reflexivity.
Defined.

(* ------------------------------------------------------------------ *)
(** ** C1: an empty population *)

Lemma js_index_nil {A} (z : Z) : @js_index A [] z = None.
Proof. unfold js_index. destruct (z <? 0)%Z; [reflexivity |]. destruct (Z.to_nat z); reflexivity. Qed.

Lemma cull_count_0 : cull_count 0 = 1%Z.
Proof.
  unfold cull_count, Math_floor. simpl INR. rewrite Rmult_0_l.
  rewrite (Int_part_IZR 0). reflexivity.
Qed.

(** C1 (code defect): with price data loaded and no active agent, the cycle
    culls [cull_count 0 = 1] agent, draws the parents of that one offspring
    from the empty breeding pool, reads [genome] of [undefined] and fails;
    it does not complete with zero culled and zero born. *)
Theorem runGeneration_empty_population (rng : nat -> R) (sym : string)
    (bars : list OHLCVBar) (priceHistory : list (string * list OHLCVBar)) (currentGen : Z) :
  cull_count 0 = 1%Z /\
  runGeneration rng ((sym, bars) :: priceHistory) [] currentGen = generation_failed.
Proof.
  split; [exact cull_count_0 |].
  unfold runGeneration, generation_body. simpl filter. simpl map. simpl rev.
  unfold sort_desc. simpl fold_left. simpl length. rewrite cull_count_0.
  simpl. rewrite firstn_nil.
  unfold make_offspring. cbv beta iota zeta delta [bind pick random ret].
  rewrite !js_index_nil. reflexivity.
Qed.

(* ------------------------------------------------------------------ *)
(** ** C3: culling and breeding keep the population size *)

Lemma insert_desc_perm {A} (key : A -> R) (x : A) (l : list A) :
  Permutation (insert_desc key x l) (x :: l).
Proof.
  induction l as [| y l IH]; simpl; [reflexivity |].
  destruct (Rltb (key y) (key x)); [reflexivity |].
  rewrite IH. apply perm_swap.
Qed.

Lemma sort_desc_perm {A} (key : A -> R) (l : list A) : Permutation (sort_desc key l) l.
Proof.
  unfold sort_desc.
  assert (G : forall acc, Permutation (fold_left (fun acc x => insert_desc key x acc) l acc)
                                      (l ++ acc)).
  { induction l as [| x l IH]; intros acc; simpl; [reflexivity |].
    rewrite IH, insert_desc_perm. symmetry. apply Permutation_middle. }
  rewrite G, app_nil_r. reflexivity.
Qed.

Lemma filter_perm {A} (p : A -> bool) (l l' : list A) :
  Permutation l l' -> Permutation (filter p l) (filter p l').
Proof.
  induction 1; simpl.
  - constructor.
  - destruct (p x); [constructor |]; assumption.
  - destruct (p x), (p y); try constructor; reflexivity.
  - eapply perm_trans; eassumption.
Qed.

Lemma count_perm {A} (p : A -> bool) (l l' : list A) :
  Permutation l l' -> length (filter p l) = length (filter p l').
Proof. intros H. apply Permutation_length, filter_perm, H. Qed.

Lemma count_map {A B} (f : A -> B) (g : B -> bool) (l : list A) :
  length (filter (fun a => g (f a)) l) = length (filter g (map f l)).
Proof. induction l as [| a l IH]; simpl; [reflexivity |]. destruct (g (f a)); simpl; lia. Qed.

Lemma count_ext {A} (p q : A -> bool) (l : list A) :
  (forall a, In a l -> p a = q a) -> length (filter p l) = length (filter q l).
Proof.
  induction l as [| a l IH]; intros H; simpl; [reflexivity |].
  rewrite (H a (or_introl eq_refl)).
  destruct (q a); simpl; rewrite IH by (intros; apply H; right; assumption);
    reflexivity.
Qed.

Lemma NoDup_app_disjoint {A} (l1 l2 : list A) (x : A) :
  NoDup (l1 ++ l2) -> In x l1 -> In x l2 -> False.
Proof.
  induction l1 as [| y l1 IH]; simpl; intros Hnd H1 H2; [exact H1 |].
  inversion Hnd as [| ? ? Hn Hd]; subst.
  destruct H1 as [-> | H1]; [apply Hn, in_or_app; right; exact H2 | eauto].
Qed.

Lemma count_split {A} (p q : A -> bool) (l : list A) :
  length (filter (fun a => p a && negb (q a)) l) =
  (length (filter p l) - length (filter (fun a => p a && q a) l))%nat /\
  (length (filter (fun a => p a && q a) l) <= length (filter p l))%nat.
Proof.
  induction l as [| a l [IH1 IH2]]; cbn [filter length]; [split; reflexivity |].
  destruct (p a), (q a); cbn [filter length andb negb]; split; lia.
Qed.

Lemma NoDup_map_filter {X Y} (keep : X -> bool) (key : X -> Y) (xs : list X) :
  NoDup (map key xs) -> NoDup (map key (filter keep xs)).
Proof.
  induction xs as [| a xs IH]; simpl; intros H; [constructor |].
  inversion H as [| ? ? Hn Hd]; subst.
  destruct (keep a); simpl; [| auto].
  constructor; [| auto].
  intros Hin. apply Hn. apply in_map_iff in Hin as (b & Hb & Hin).
  apply filter_In in Hin as [Hin _]. rewrite <- Hb. apply in_map, Hin.
Qed.

Lemma backtest_update_id ph a : Agent.id (backtest_update ph a) = Agent.id a.
Proof. unfold backtest_update. destruct (backtestAgent a ph); reflexivity. Qed.

Lemma backtest_update_status ph a : Agent.status (backtest_update ph a) = Agent.status a.
Proof. unfold backtest_update. destruct (backtestAgent a ph); reflexivity. Qed.

Lemma map_id_backtest_update ph l :
  map Agent.id (map (backtest_update ph) l) = map Agent.id l.
Proof. rewrite map_map. apply map_ext. apply backtest_update_id. Qed.

Lemma existsb_id_In (bottom : list AgentGenome) (z : Z) :
  existsb (fun b => Z.eqb (Agent.id b) z) bottom = true <-> In z (map Agent.id bottom).
Proof.
  rewrite existsb_exists, in_map_iff. split.
  - intros (b & Hb & He). apply Z.eqb_eq in He. exists b. auto.
  - intros (b & Hb & Hin). exists b. split; [exact Hin | apply Z.eqb_eq, Hb].
Qed.

(** Culled members: every element of the tail is in the tail, no element of
    the head is, when the ids are distinct. *)
Lemma count_in_tail (m : nat) (sorted : list AgentGenome) :
  NoDup (map Agent.id sorted) ->
  length (filter (fun a => existsb (fun b => Z.eqb (Agent.id b) (Agent.id a))
                             (skipn m sorted)) sorted) = length (skipn m sorted).
Proof.
  intros Hnd.
  rewrite <- (firstn_skipn m sorted) at 1. rewrite filter_app, length_app.
  rewrite <- (firstn_skipn m sorted) in Hnd. rewrite map_app in Hnd.
  set (top := firstn m sorted) in *. set (bot := skipn m sorted) in *.
  rewrite (count_ext _ (fun _ => false) top).
  2: { intros a Ha. destruct (existsb _ bot) eqn:E; [| reflexivity].
       apply existsb_id_In in E. exfalso.
       apply (NoDup_app_disjoint _ _ (Agent.id a) Hnd); [apply in_map, Ha | exact E]. }
  rewrite (count_ext _ (fun _ => true) bot).
  2: { intros a Ha. apply existsb_id_In, in_map, Ha. }
  clear. assert (Hf : forall {A} (l : list A), filter (fun _ => false) l = []).
  { intros A l. induction l; simpl; auto. }
  assert (Ht : forall {A} (l : list A), filter (fun _ => true) l = l).
  { intros A l. induction l; simpl; congruence. }
  rewrite Hf, Ht. reflexivity.
Qed.

Lemma Math_floor_index (r : R) (n : nat) :
  0 <= r < 1 -> (1 <= n)%nat ->
  (0 <= Math_floor (r * INR n))%Z /\ (Z.to_nat (Math_floor (r * INR n)) < n)%nat.
Proof.
  intros Hr Hn. assert (HI : 1 <= INR n) by (apply (le_INR 1); exact Hn).
  unfold Math_floor. split.
  - apply Int_part_ge. simpl. nra.
  - assert (Int_part (r * INR n) <= Z.of_nat n - 1)%Z.
    { apply Int_part_le. rewrite minus_IZR, <- INR_IZR_INZ. nra. }
    lia.
Qed.

Lemma js_index_pick {A} (xs : list A) (r : R) :
  xs <> [] -> 0 <= r < 1 -> exists x, js_index xs (Math_floor (r * INR (length xs))) = Some x.
Proof.
  intros Hx Hr. assert (Hl : (1 <= length xs)%nat)
    by (destruct xs; [contradiction | simpl; lia]).
  destruct (Math_floor_index r (length xs) Hr Hl) as [H0 H1].
  unfold js_index. destruct (Z.ltb_spec (Math_floor (r * INR (length xs))) 0); [lia |].
  destruct (nth_error xs _) as [x |] eqn:E; [exists x; reflexivity |].
  apply nth_error_None in E. lia.
Qed.

Section Breeding.

Variable rng : nat -> R.
Hypothesis rng_range : forall k, 0 <= rng k < 1.

Lemma crossoverMutate_ok (p1 p2 : SMAGenome) (k : nat) :
  exists g k', crossoverMutate rng p1 p2 k = Some (g, k').
Proof.
  unfold crossoverMutate, blend. cbv beta iota zeta delta [bind random ret].
  destruct (Rltb (rng k) 0.75); eauto.
Qed.

Lemma make_offspring_ok (topBreed : list AgentGenome) (maxId currentGen : Z) (i k : nat) :
  topBreed <> [] ->
  exists x k', make_offspring rng topBreed maxId currentGen i k = Some (x, k') /\
               Agent.status x = newborn.
Proof.
  intros Hne. unfold make_offspring. cbv beta iota zeta delta [bind pick random ret].
  destruct (js_index_pick topBreed (rng k) Hne (rng_range k)) as [p1 Hp1].
  destruct (js_index_pick topBreed (rng (S k)) Hne (rng_range (S k))) as [p2 Hp2].
  rewrite Hp1, Hp2.
  destruct (crossoverMutate_ok (Agent.genome p1) (Agent.genome p2) (S (S k)))
    as (g & k' & Hg).
  rewrite Hg. eauto.
Qed.

Lemma mapM_make_offspring_ok (topBreed : list AgentGenome) (maxId currentGen : Z) :
  topBreed <> [] ->
  forall l k, exists raw k',
    mapM (make_offspring rng topBreed maxId currentGen) l k = Some (raw, k') /\
    length raw = length l /\ Forall (fun x => Agent.status x = newborn) raw.
Proof.
  intros Hne l. induction l as [| i l IH]; intros k.
  - exists [], k. simpl. auto.
  - simpl mapM. unfold bind at 1.
    destruct (make_offspring_ok topBreed maxId currentGen i k Hne) as (y & k1 & Hy & Hs).
    rewrite Hy. unfold bind.
    destruct (IH k1) as (ys & k2 & Hys & Hl & Hf). rewrite Hys.
    exists (y :: ys), k2. unfold ret. simpl. auto.
Qed.

End Breeding.

(** C3: for a population with [N >= 1] active agents (distinct ids, as the
    [agents] table's primary key guarantees) and price data loaded, one
    generation marks exactly [max(1, floor(0.20 * N))] active agents extinct
    and creates exactly that many newborn offspring, so [N] agents are
    active afterwards. *)
Theorem runGeneration_population_preserved (rng : nat -> R)
    (priceHistory : list (string * list OHLCVBar)) (agents : list AgentGenome)
    (currentGen : Z)
    (Hph : priceHistory <> [])
    (Hids : NoDup (map Agent.id agents))
    (Hrng : forall k, 0 <= rng k < 1)
    (HN : (1 <= length (filter (fun a => negb (is_extinct a)) agents))%nat) :
  let N := length (filter (fun a => negb (is_extinct a)) agents) in
  let cullCount := Z.to_nat (Z.max 1 (Math_floor (INR N * 0.20))) in
  exists allNext culled born,
    runGeneration rng priceHistory agents currentGen = completed allNext culled born /\
    length culled = cullCount /\ length born = cullCount /\
    (forall b, In b culled ->
       In (Agent.id b) (map Agent.id (filter (fun a => negb (is_extinct a)) agents))) /\
    length (filter (fun a => negb (is_extinct a)) (firstn (length agents) allNext)) =
      (N - cullCount)%nat /\
    length (filter (fun a => negb (is_extinct a)) allNext) = N.
Proof.
  intros N cc.
  destruct priceHistory as [| ph0 phs]; [contradiction |].
  unfold runGeneration, generation_body. cbv zeta.
  set (ph := ph0 :: phs).
  set (act := filter (fun a => negb (is_extinct a)) agents) in *.
  set (backtested := map (backtest_update ph) act).
  set (sorted := sort_desc _ backtested).
  assert (Hperm : Permutation sorted backtested) by apply sort_desc_perm.
  assert (Hlen : length sorted = N)
    by (rewrite (Permutation_length Hperm); unfold backtested; apply length_map).
  rewrite Hlen.
  assert (Hcc : Z.to_nat (cull_count N) = cc) by reflexivity.
  rewrite Hcc.
  assert (Hccb : (1 <= cc <= N)%nat).
  { assert (HI : 1 <= INR N) by (apply (le_INR 1); exact HN).
    assert (Hf : (Math_floor (INR N * 0.20) <= Z.of_nat N - 1)%Z).
    { unfold Math_floor. apply Int_part_le. rewrite minus_IZR, <- INR_IZR_INZ. lra. }
    unfold cc. lia. }
  assert (Htop : firstn (Z.to_nat (breed_count N)) sorted <> []).
  { unfold breed_count. destruct sorted as [| s0 ss]; [simpl in Hlen; lia |].
    destruct (Z.to_nat (Z.max 2 _)) eqn:E; [lia | discriminate]. }
  destruct (mapM_make_offspring_ok rng Hrng _ (maxId_of agents) currentGen Htop
              (seq 0 cc) 0%nat) as (raw & k' & Hm & Hrl & Hrs).
  unfold bind at 1. rewrite Hm. unfold ret.
  do 3 eexists. split; [reflexivity |].
  rewrite length_seq in Hrl.
  set (inCull := fun a : AgentGenome =>
         existsb (fun b : AgentGenome => (Agent.id b =? Agent.id a)%Z) (slice_last cc sorted)).
  match goal with |- context [map ?f agents] => set (surv := f) end.
  assert (Hsurv : forall a, negb (is_extinct (surv a)) = negb (is_extinct a) && negb (inCull a)).
  { intros a. unfold surv. fold (inCull a). destruct (inCull a); [unfold is_extinct; cbn; destruct (Agent.status a); reflexivity |].
    unfold is_extinct. destruct (find _ _); cbn [with_status Agent.status];
      destruct (Agent.status a); reflexivity. }
  assert (Hidsb : NoDup (map Agent.id sorted)).
  { apply (Permutation_NoDup (Permutation_map Agent.id (Permutation_sym Hperm))).
    unfold backtested. rewrite map_id_backtest_update. apply NoDup_map_filter, Hids. }
  assert (Hslen : length (slice_last cc sorted) = cc)
    by (unfold slice_last; rewrite length_skipn; lia).
  assert (Hfilt : forall (p q : AgentGenome -> bool) l,
             length (filter (fun a => p a && q a) l) = length (filter q (filter p l))).
  { intros p q l. induction l as [| a l IH]; simpl; [reflexivity |].
    destruct (p a); simpl; [destruct (q a); simpl |]; lia. }
  assert (Hcull : length (filter (fun a => negb (is_extinct a) && inCull a) agents) = cc).
  { rewrite Hfilt. fold act.
    rewrite (count_ext inCull (fun a => inCull (backtest_update ph a)) act)
      by (intros a _; unfold inCull; rewrite backtest_update_id; reflexivity).
    rewrite count_map. fold backtested. rewrite <- (count_perm _ _ _ Hperm).
    unfold inCull, slice_last. rewrite count_in_tail by exact Hidsb.
    rewrite length_skipn. lia. }
  assert (Hhead : length (filter (fun a => negb (is_extinct a)) (map surv agents)) = (N - cc)%nat).
  { rewrite <- count_map. rewrite (count_ext _ (fun a => negb (is_extinct a) && negb (inCull a)))
      by (intros a _; apply Hsurv).
    destruct (count_split (fun a => negb (is_extinct a)) inCull agents) as [H1 _].
    rewrite H1, Hcull. reflexivity. }
  assert (Hborn : length (filter (fun a => negb (is_extinct a)) (map (backtest_update ph) raw)) = cc).
  { rewrite <- count_map. rewrite <- Hrl. clear -Hrs. induction Hrs as [| x l Hx _ IH]; [reflexivity |].
    cbn [filter length]. unfold is_extinct at 1. rewrite backtest_update_status, Hx. simpl. lia. }
  split; [exact Hslen |]. split; [rewrite length_map; exact Hrl |]. split.
  { intros b Hb. unfold slice_last in Hb.
    assert (Hb' : In b sorted)
      by (rewrite <- (firstn_skipn (length sorted - cc) sorted); apply in_or_app; right; exact Hb).
    clear Hb; rename Hb' into Hb.
    apply (Permutation_in _ Hperm) in Hb. fold backtested in Hb.
    change (map Agent.id act) with (map Agent.id act).
    rewrite <- (map_id_backtest_update ph act). apply in_map, Hb. }
  split.
  - rewrite <- (length_map surv agents), firstn_app, Nat.sub_diag, firstn_O, app_nil_r,
      firstn_all. exact Hhead.
  - rewrite filter_app, length_app, Hhead, Hborn. lia.
Qed.

Lemma cull_count_10 : cull_count 10 = 2%Z.
Proof.
  unfold cull_count, Math_floor. rewrite (Int_part_eq _ 2); [reflexivity |].
  simpl INR. lra.
Qed.

Lemma runGeneration_population_preserved_witness :
  NoDup (map Agent.id sample_population) /\
  length (filter (fun a => negb (is_extinct a)) sample_population) = 10%nat /\
  exists allNext culled born,
    runGeneration (fun _ => 0) [("BTC"%string, [])] sample_population 1 =
      completed allNext culled born /\
    length culled = 2%nat /\ length born = 2%nat /\
    length (filter (fun a => negb (is_extinct a)) allNext) = 10%nat.
Proof.
  assert (H1 : NoDup (map Agent.id sample_population))
    by (vm_compute; repeat constructor; simpl; lia).
  assert (H2 : length (filter (fun a => negb (is_extinct a)) sample_population) = 10%nat)
    by reflexivity.
  split; [exact H1 |]. split; [exact H2 |].
  pose proof (runGeneration_population_preserved (fun _ => 0) [("BTC"%string, [])]
                sample_population 1 ltac:(discriminate) H1 ltac:(intros; lra)
                ltac:(rewrite H2; lia)) as H.
  cbv zeta in H. rewrite H2 in H. fold (cull_count 10) in H. rewrite cull_count_10 in H.
  destruct H as (allNext & culled & born & Hr & Hc & Hb & _ & _ & Ht).
  exists allNext, culled, born. auto.
Defined.

Lemma bt_periods_0_0 : bt_periods 0 0 = (5%Z, 20%Z).
Proof.
  unfold bt_periods, decodeFastMA, decodeSlowMA, Math_round.
  rewrite (Int_part_eq (5 + 0 * 45 + / 2) 5) by lra.
  rewrite (Int_part_eq (20 + 0 * 180 + / 2) 20) by lra.
  reflexivity.
Qed.

Lemma prefix_from_repeat (c : R) (n : nat) : forall acc k, (k < n)%nat ->
  nth k (prefix_from acc (repeat c n)) 0 = acc + INR (S k) * c.
Proof.
  induction n as [| n IH]; intros acc k Hk; [lia |].
  destruct k as [| k]; simpl repeat; simpl prefix_from.
  - simpl. lra.
  - cbn [nth]. rewrite IH by lia. rewrite !S_INR. lra.
Qed.

Lemma prefix_repeat (c : R) (n k : nat) : (k <= n)%nat ->
  nth k (prefix (repeat c n)) 0 = INR k * c.
Proof.
  intros Hk. unfold prefix. destruct k as [| k]; [simpl; lra |].
  cbn [nth]. rewrite prefix_from_repeat by lia. lra.
Qed.

(** In exact arithmetic every defined SMA of a constant series is the
    constant itself. *)
Lemma computeSMA_repeat (c : R) (n : nat) (p : Z) (i : nat) (v : R) :
  (1 <= p)%Z -> nth_error (computeSMA (repeat c n) p) i = Some (Some v) -> v = c.
Proof.
  intros Hp H. unfold computeSMA in H. rewrite nth_error_map in H. rewrite repeat_length in H.
  destruct (nth_error (seq 0 n) i) as [j |] eqn:E; [| discriminate].
  assert (Hi : (i < length (seq 0 n))%nat)
    by (apply nth_error_Some; rewrite E; discriminate).
  rewrite nth_error_seq in E. rewrite length_seq in Hi.
  destruct (Nat.ltb_spec i n); [| lia]. injection E as Ej. simpl in Ej. subst j.
  unfold option_map in H. cbv beta zeta in H. destruct (Z.ltb_spec (Z.of_nat i) (p - 1)); [discriminate |].
  injection H as <-.
  change ((nth (i + 1) (prefix (repeat c n)) 0 -
           nth (i + 1 - Z.to_nat p) (prefix (repeat c n)) 0) / IZR p = c).
  rewrite !prefix_repeat by lia.
  rewrite minus_INR by lia. rewrite (INR_IZR_INZ (Z.to_nat p)), Z2Nat.id by lia.
  field. apply not_0_IZR. lia.
Qed.

(** C9 (code_bug): the genome with [fastMA = slowMA = 0] trades on the
    periods 5 and 20; over fifty bars that all close at the double nearest
    to [0.1], the binary64 running sums make the two SMAs differ in their
    last bits, and the loop pushes an exit, an entry and an exit signal,
    although in exact arithmetic every defined SMA of the series is [0.1]
    itself, so that no cross could fire. *)
Theorem runBacktest_constant_prices_signals :
  bt_periods 0 0 = (5%Z, 20%Z) /\
  IEEE.signal_actions (repeat IEEE.tenth 50) 5 20 = [exit; entry; exit] /\
  (forall (p : Z) (i : nat) (v : R), (1 <= p)%Z ->
     nth_error (computeSMA (repeat 0.1 50) p) i = Some (Some v) -> v = 0.1).
Proof.
  split; [exact bt_periods_0_0 |]. split; [vm_compute; reflexivity |].
  intros p i v Hp. apply computeSMA_repeat, Hp.
Qed.

(* ------------------------------------------------------------------ *)
(** ** Alternation of the trade signals *)

Lemma rebalance_signals (equity price tgt : R) (st : bt_state) :
  st_tradeSignals (rebalance equity price tgt st) = st_tradeSignals st /\
  prevFSMA (rebalance equity price tgt st) = prevFSMA st /\
  prevSSMA (rebalance equity price tgt st) = prevSSMA st.
Proof. unfold rebalance. split_ifs; repeat split. Qed.

Definition last_action (l : list action) : option action :=
  match rev l with a :: _ => Some a | [] => None end.

Lemma alternating_snoc (l : list action) (a : action) :
  alternating l = true -> last_action l <> Some a -> alternating (l ++ [a]) = true.
Proof.
  unfold last_action. induction l as [| b l IH]; intros Hl Hlast; [reflexivity |].
  destruct l as [| c l].
  - simpl in *. destruct a, b; simpl; congruence.
  - change (alternating (b :: c :: l) = true) in Hl. cbn [alternating] in Hl.
    apply andb_prop in Hl as [Hbc Hl].
    change ((b :: c :: l) ++ [a]) with (b :: (c :: l ++ [a])). cbn [alternating].
    rewrite Hbc. simpl andb.
    apply IH; [exact Hl |].
    intros E. apply Hlast. change (rev (b :: c :: l)) with (rev (c :: l) ++ [b]).
    destruct (rev (c :: l)) eqn:Er; [| exact E].
    apply (f_equal (@length action)) in Er. simpl in Er. rewrite length_app in Er.
    simpl in Er. lia.
Qed.

Definition both_some (x : OHLCVBar * option R * option R) : Prop :=
  match x with (_, Some _, Some _) => True | _ => False end.

(** Once both SMAs are defined they stay defined. *)
Fixpoint suffix_closed (xs : list (OHLCVBar * option R * option R)) : Prop :=
  match xs with
  | [] => True
  | x :: xs' => (both_some x -> Forall both_some xs') /\ suffix_closed xs'
  end.

(** The signals alternate, and the last one agrees with the relation of the
    remembered SMA pair. *)
Definition alt_inv (st : bt_state) : Prop :=
  alternating (map sig_action (st_tradeSignals st)) = true /\
  match last_action (map sig_action (st_tradeSignals st)) with
  | None => True
  | Some a => exists pf ps, prevFSMA st = Some pf /\ prevSSMA st = Some ps /\
                            (a = entry <-> ps < pf)
  end.

Lemma last_action_None (l : list TradeSignal) :
  last_action (map sig_action l) = None -> l = [].
Proof.
  unfold last_action. destruct l as [| x l]; [reflexivity |].
  simpl. destruct (rev (map sig_action l)); discriminate.
Qed.

Lemma last_action_snoc (l : list action) (a : action) :
  last_action (l ++ [a]) = Some a.
Proof. unfold last_action. rewrite rev_app_distr. reflexivity. Qed.

Lemma alt_inv_signals (st st' : bt_state) :
  st_tradeSignals st' = st_tradeSignals st -> prevFSMA st' = prevFSMA st ->
  prevSSMA st' = prevSSMA st -> alt_inv st -> alt_inv st'.
Proof. unfold alt_inv. intros -> -> ->. exact (fun H => H). Qed.

Lemma alt_inv_empty (st : bt_state) : st_tradeSignals st = [] -> alt_inv st.
Proof. unfold alt_inv. intros ->. split; [reflexivity | exact I]. Qed.

Lemma bt_step_alt ra init i st x :
  alt_inv st -> (st_tradeSignals st <> [] -> both_some x) ->
  alt_inv (bt_step ra init i st x).
Proof.
  intros Hinv Hx. destruct x as [[bar fo] so]. unfold bt_step.
  destruct fo as [f |], so as [s |];
    try (apply alt_inv_empty; cbn [st_tradeSignals];
         destruct (st_tradeSignals st) as [| t ts]; [reflexivity |];
         exfalso; apply Hx; discriminate).
  cbv zeta.
  match goal with |- alt_inv (if _ then ?st1 else _) => assert (H1 : alt_inv st1) end.
  2: { destruct (Rleb _ _); [exact H1 |].
       match goal with |- alt_inv (rebalance ?e ?p ?t ?s1) =>
         destruct (rebalance_signals e p t s1) as (E1 & E2 & E3) end.
       exact (alt_inv_signals _ _ E1 E2 E3 H1). }
  destruct Hinv as [Halt Hlast].
  unfold alt_inv. cbn [st_tradeSignals prevFSMA prevSSMA]. unfold detect_cross.
  destruct (prevFSMA st) as [pf |] eqn:EF, (prevSSMA st) as [ps |] eqn:ES;
    try (split; [exact Halt |];
         destruct (last_action _) as [a |]; [| exact I];
         destruct Hlast as (? & ? & HF & HS & _); congruence).
  destruct (last_action (map sig_action (st_tradeSignals st))) as [a |] eqn:EL.
  - destruct Hlast as (pf' & ps' & HF & HS & [Hi1 Hi2]).
    injection HF as <-. injection HS as <-.
    unfold Rltb, Rleb.
    destruct (Rlt_dec s f), (Rle_dec pf ps), (Rle_dec f s), (Rlt_dec ps pf); simpl;
    first
      [ rewrite map_app; cbn [map sig_action]; split;
        [ apply alternating_snoc; [exact Halt |]; rewrite EL; intros Ea;
          injection Ea as ->;
          first [ specialize (Hi1 eq_refl); lra
                | specialize (Hi2 ltac:(assumption)); discriminate ]
        | rewrite last_action_snoc; exists f, s;
          split; [reflexivity |]; split; [reflexivity |];
          split; intros; first [lra | discriminate | reflexivity] ]
      | split; [exact Halt |]; rewrite EL; exists f, s;
        split; [reflexivity |]; split; [reflexivity |];
        destruct a;
        [ specialize (Hi1 eq_refl); split; intros; [lra | reflexivity]
        | split; intros; [discriminate |]; exfalso;
          destruct (Rlt_dec ps pf) as [Hp | Hp];
          [specialize (Hi2 Hp); discriminate | lra] ] ].
  - pose proof (last_action_None _ EL) as Hnil. rewrite Hnil.
    unfold Rltb, Rleb.
    destruct (Rlt_dec s f), (Rle_dec pf ps), (Rle_dec f s), (Rlt_dec ps pf); simpl;
      split; try reflexivity; try exact I;
      exists f, s; (split; [reflexivity |]; split; [reflexivity |]);
      split; intros; first [lra | discriminate | reflexivity].
Qed.

Lemma bt_step_signals_other ra init i st bar fo so :
  ~ both_some (bar, fo, so) ->
  st_tradeSignals (bt_step ra init i st (bar, fo, so)) = st_tradeSignals st.
Proof. intros H. destruct fo, so; [exfalso; exact (H I) | reflexivity ..]. Qed.

Lemma bt_loop_alt ra init xs : forall i st,
  suffix_closed xs -> alt_inv st -> (st_tradeSignals st <> [] -> Forall both_some xs) ->
  alt_inv (bt_loop ra init i xs st).
Proof.
  induction xs as [| x xs IH]; intros i st Hsc Hinv Hne; [exact Hinv |].
  destruct Hsc as [Hx Hsc]. cbn [bt_loop]. apply IH; [exact Hsc | |].
  - apply bt_step_alt; [exact Hinv |].
    intros H. specialize (Hne H). inversion Hne; assumption.
  - intros Hne'. destruct x as [[bar fo] so].
    destruct fo as [f |], so as [s |]; try (apply Hx; exact I);
      rewrite bt_step_signals_other in Hne' by (intros []);
      specialize (Hne Hne'); inversion Hne; assumption.
Qed.

Section Suffix.

Variables F G : nat -> option R.
Hypothesis F_mono : forall i j, (i <= j)%nat -> F i <> None -> F j <> None.
Hypothesis G_mono : forall i j, (i <= j)%nat -> G i <> None -> G j <> None.

Lemma combine_later_some (n : nat) : forall (k : nat) (bs : list OHLCVBar),
  F k <> None -> G k <> None ->
  Forall both_some (combine (combine bs (map F (seq (S k) n))) (map G (seq (S k) n))).
Proof.
  induction n as [| n IH]; intros k bs HF HG; [destruct bs; constructor |].
  destruct bs as [| b bs]; [constructor |].
  cbn [seq map combine]. constructor.
  - assert (HF' : F (S k) <> None) by (apply (F_mono k); [lia | exact HF]).
    assert (HG' : G (S k) <> None) by (apply (G_mono k); [lia | exact HG]).
    destruct (F (S k)), (G (S k)); [exact I | congruence ..].
  - apply IH; apply (F_mono k) || apply (G_mono k); (lia || assumption).
Qed.

Lemma combine_suffix_closed (n : nat) : forall (k : nat) (bs : list OHLCVBar),
  suffix_closed (combine (combine bs (map F (seq k n))) (map G (seq k n))).
Proof.
  induction n as [| n IH]; intros k bs; [destruct bs; exact I |].
  destruct bs as [| b bs]; [exact I |].
  cbn [seq map combine suffix_closed]. split; [| apply IH].
  intros Hb. apply combine_later_some;
    destruct (F k), (G k); (discriminate || contradiction).
Qed.

End Suffix.

Lemma bt_inputs_suffix_closed bars fp sp : suffix_closed (bt_inputs bars fp sp).
Proof.
  unfold bt_inputs, computeSMA. apply combine_suffix_closed;
    intros i j Hij; cbv beta zeta;
    match goal with |- context [(Z.of_nat i <? ?q)%Z] =>
      destruct (Z.ltb_spec (Z.of_nat i) q), (Z.ltb_spec (Z.of_nat j) q) end;
    intros Hn; (discriminate || lia || congruence).
Qed.

(** C10: the actions of the trade signals of every backtest result
    alternate, no entry following an entry and no exit following an exit. *)
Theorem runBacktest_signals_alternate (bars : list OHLCVBar)
    (fastMAv slowMAv riskAversion initialCapital : R) :
  match runBacktest bars fastMAv slowMAv riskAversion initialCapital with
  | Some r => alternating (map sig_action (tradeSignals r)) = true
  | None => True
  end.
Proof.
  destruct (Nat.ltb_spec (length bars) 50) as [Hl | Hl].
  - rewrite runBacktest_None by exact Hl. exact I.
  - rewrite runBacktest_unfold by exact Hl. cbn zeta. cbn [tradeSignals].
    unfold bt_final. destruct (bt_periods fastMAv slowMAv) as [fp sp].
    apply bt_loop_alt.
    + apply bt_inputs_suffix_closed.
    + apply alt_inv_empty. reflexivity.
    + intros H. exfalso. apply H. reflexivity.
Qed.

(* ------------------------------------------------------------------ *)
(** ** No leverage, no short position *)

Lemma Rltb_iff (x y : R) : Rltb x y = true <-> x < y.
Proof. unfold Rltb. destruct (Rlt_dec x y); split; intros; (lra || discriminate || reflexivity). Qed.

Lemma rebalance_nonneg (equity price tgt : R) (st : bt_state) :
  0 < price -> 0 <= cash st -> 0 <= position st ->
  0 <= cash (rebalance equity price tgt st) /\ 0 <= position (rebalance equity price tgt st).
Proof.
  intros Hp Hc Hq. assert (Hip : 0 < / price) by (apply Rinv_0_lt_compat, Hp).
  unfold rebalance. cbv zeta.
  set (delta := equity * tgt / price - position st).
  destruct (Rltb 0 delta) eqn:E1; [apply Rltb_iff in E1 |].
  - assert (H1 : 0 <= Rmin (delta * price) (cash st)) by (apply Rmin_glb; nra).
    assert (H2 : Rmin (delta * price) (cash st) <= cash st) by apply Rmin_r.
    cbn. unfold Rdiv. split; nra.
  - destruct (Rltb delta 0) eqn:E2; [| cbn; lra].
    set (u := Rmin (Rabs delta) (position st)).
    assert (H1 : 0 <= u) by (apply Rmin_glb; [apply Rabs_pos | exact Hq]).
    assert (H2 : u <= position st) by apply Rmin_r.
    destruct (Rltb ((position st - u) * price) (equity * 0.005)).
    + destruct (if Rltb (entryEquity st) _ then _ else _). cbn. split; nra.
    + cbn. split; nra.
Qed.

Lemma bt_step_nonneg ra init i st x :
  0 < close (fst (fst x)) -> 0 <= cash st -> 0 <= position st ->
  0 <= cash (bt_step ra init i st x) /\ 0 <= position (bt_step ra init i st x).
Proof.
  destruct x as [[bar fo] so]. cbn [fst]. intros Hp Hc Hq. unfold bt_step.
  destruct fo as [f |], so as [s |]; try (cbn; lra).
  cbv zeta. destruct (Rleb _ _); [cbn; lra |].
  apply rebalance_nonneg; cbn; assumption.
Qed.

Lemma bt_loop_nonneg ra init xs : forall i st,
  Forall (fun x => 0 < close (fst (fst x))) xs -> 0 <= cash st -> 0 <= position st ->
  0 <= cash (bt_loop ra init i xs st) /\ 0 <= position (bt_loop ra init i xs st).
Proof.
  induction xs as [| x xs IH]; intros i st Hf Hc Hq; [auto |].
  inversion Hf as [| ? ? Hx Hxs]; subst. cbn [bt_loop].
  destruct (bt_step_nonneg ra init i st x Hx Hc Hq). apply IH; assumption.
Qed.

(** *** [Math.tanh] in binary64 *)



Lemma ln2_pos : 0 < ln 2.
Proof. rewrite <- ln_1. apply ln_increasing; lra. Qed.


Lemma pow2_53 : 2 ^ 53 = IZR 9007199254740992.
Proof. rewrite pow_IZR. reflexivity. Qed.

Lemma pow2_54 : 2 ^ 54 = IZR 18014398509481984.
Proof. rewrite pow_IZR. reflexivity. Qed.

Lemma round_binary64_near_one (y : R) : 1 - / 2 ^ 54 < y < 1 -> round_binary64 y = 1.
Proof.
  rewrite pow2_54. intros Hy. unfold round_binary64.
  assert (Hs : 0 < / IZR 18014398509481984) by (apply Rinv_0_lt_compat; lra).
  assert (Hs' : / IZR 18014398509481984 < / 2).
  { apply Rinv_lt_contravar; lra. }
  destruct (Req_dec_T y 0) as [-> | Hy0]; [lra |]. cbv zeta.
  assert (He : binary64_exponent y = (-1)%Z).
  { unfold binary64_exponent. rewrite Rabs_right by lra.
    pose proof ln2_pos.
    assert (Hl : ln y < 0) by (rewrite <- ln_1; apply ln_increasing; lra).
    assert (Hl2 : - ln 2 < ln y).
    { rewrite <- ln_Rinv by lra. apply ln_increasing; [lra |]. lra. }
    rewrite (Int_part_eq _ (-1)); [reflexivity |].
    split.
    - apply (Rmult_le_reg_r (ln 2)); [lra |]. unfold Rdiv.
      rewrite Rmult_assoc, Rinv_l by lra. lra.
    - apply (Rmult_lt_reg_r (ln 2)); [lra |]. unfold Rdiv.
      rewrite Rmult_assoc, Rinv_l by lra. lra. }
  rewrite He. change (-1 - 52)%Z with (-53)%Z.
  change (powerRZ 2 (-53)) with (/ 2 ^ 53). rewrite pow2_53.
  set (t := IZR 9007199254740992).
  assert (Ht : IZR 18014398509481984 = 2 * t) by (unfold t; lra).
  rewrite Ht in Hy. unfold Rdiv. rewrite Rinv_inv.
  assert (Hyt : t - / 2 < y * t < t).
  { assert (0 < t) by (unfold t; lra).
    rewrite Rinv_mult in Hy. split; [| nra].
    assert (Hi : / 2 * / t * t = / 2) by (field; lra). nra. }
  unfold round_half_even. cbv zeta.
  rewrite (Int_part_eq _ 9007199254740991) by (unfold t in *; lra).
  rewrite Rltb_false by (unfold t in *; lra).
  rewrite Rltb_true by (unfold t in *; lra).
  change (9007199254740991 + 1)%Z with 9007199254740992%Z. fold t.
  field. unfold t. lra.
Qed.

Lemma exp_INR_mult (n : nat) (a : R) : exp (INR n * a) = exp a ^ n.
Proof.
  induction n as [| n IH]; [simpl; rewrite Rmult_0_l; apply exp_0 |].
  rewrite S_INR, Rmult_plus_distr_r, Rmult_1_l, exp_plus, IH. simpl. ring.
Qed.

Lemma exp_43 : 2 ^ 55 < exp 43.
Proof.
  replace 43 with (INR 215 * (1 / 5)) by (rewrite INR_IZR_INZ; simpl; lra).
  rewrite exp_INR_mult.
  assert (H1 : 6 / 5 <= exp (1 / 5)) by (pose proof (exp_ineq1 (1 / 5)); lra).
  assert (H2 : (6 / 5) ^ 215 <= exp (1 / 5) ^ 215) by (apply pow_incr; lra).
  assert (H3 : (6 / 5) ^ 215 * 5 ^ 215 = 6 ^ 215)
    by (rewrite <- Rpow_mult_distr; f_equal; lra).
  assert (Hz : (2 ^ Z.of_nat 55 * 5 ^ Z.of_nat 215 < 6 ^ Z.of_nat 215)%Z)
    by (vm_compute; reflexivity).
  apply IZR_lt in Hz. rewrite mult_IZR, <- !pow_IZR in Hz.
  assert (H5 : 0 < 5 ^ 215) by (apply pow_lt; lra).
  nra.
Qed.

Lemma tanh_near_one (x : R) : 43 / 2 <= x -> 1 - / 2 ^ 54 < tanh x < 1.
Proof.
  intros Hx. unfold tanh, sinh, cosh. rewrite exp_Ropp.
  assert (Hp : 0 < exp x) by apply exp_pos.
  assert (Hxx : exp x * exp x = exp (x + x)) by (rewrite exp_plus; reflexivity).
  assert (Hbig : 2 ^ 55 < exp x * exp x).
  { rewrite Hxx. apply (Rlt_le_trans _ (exp 43)); [exact exp_43 |].
    destruct (Req_dec (x + x) 43) as [-> | Hne]; [lra |].
    apply Rlt_le, exp_increasing. lra. }
  assert (H54 : 2 ^ 55 = 2 * 2 ^ 54) by reflexivity.
  assert (Hq : 0 < 2 ^ 54) by (apply pow_lt; lra).
  replace ((exp x - / exp x) / 2 / ((exp x + / exp x) / 2))
    with ((exp x * exp x - 1) / (exp x * exp x + 1)) by (field; lra).
  set (E := exp x * exp x) in *.
  split.
  - apply (Rmult_lt_reg_r (E + 1)); [lra |].
    unfold Rdiv. rewrite Rmult_assoc, Rinv_l by lra.
    assert (Hi : / 2 ^ 54 * 2 ^ 54 = 1) by (field; lra).
    assert (2 <= / 2 ^ 54 * (E + 1)) by nra. nra.
  - apply (Rmult_lt_reg_r (E + 1)); [lra |].
    unfold Rdiv. rewrite Rmult_assoc, Rinv_l by lra. lra.
Qed.

Lemma Math_tanh_saturates (x : R) : 43 / 2 <= x -> Math_tanh x = 1.
Proof. intros Hx. apply round_binary64_near_one, tanh_near_one, Hx. Qed.









Lemma bt_inputs_close (bars : list OHLCVBar) fp sp :
  Forall (fun b => 0 < close b) bars ->
  Forall (fun x => 0 < close (fst (fst x))) (bt_inputs bars fp sp).
Proof.
  intros H. rewrite Forall_forall in *. intros [[b fo] so] Hin. cbn [fst].
  apply H. unfold bt_inputs in Hin. apply in_combine_l, in_combine_l in Hin. exact Hin.
Qed.




(** Fifty bars that all close at 1. *)
Definition flat_bars : list OHLCVBar := repeat (mkBar "d" 1 1 1 1 0) 50.


(* ------------------------------------------------------------------ *)
(** * Further properties of the code *)

(** ** Decoders *)

(** X1: a gene in [0, 1] decodes to a fast period of 5 to 50 days. *)
Theorem decodeFastMA_range (v : R) : 0 <= v <= 1 -> (5 <= decodeFastMA v <= 50)%Z.
Proof.
  intros Hv. unfold decodeFastMA, Math_round.
  assert (Int_part (5 + v * 45 + / 2) <= 50)%Z by (apply Int_part_le; lra).
  lia.
Qed.

Lemma decodeFastMA_range_witness : 0 <= 0.5 <= 1 /\ (5 <= decodeFastMA 0.5 <= 50)%Z.
Proof. split; [lra | apply decodeFastMA_range; lra]. Defined.

(** X2: a gene in [0, 1] decodes to a slow period of 20 to 200 days. *)
Theorem decodeSlowMA_range (v : R) : 0 <= v <= 1 -> (20 <= decodeSlowMA v <= 200)%Z.
Proof.
  intros Hv. unfold decodeSlowMA, Math_round.
  assert (Int_part (20 + v * 180 + / 2) <= 200)%Z by (apply Int_part_le; lra).
  lia.
Qed.

Lemma decodeSlowMA_range_witness : 0 <= 0.5 <= 1 /\ (20 <= decodeSlowMA 0.5 <= 200)%Z.
Proof. split; [lra | apply decodeSlowMA_range; lra]. Defined.

(** X3: for genes in [0, 1] the periods the simulator uses, after the
    correction of a fast period not below the slow one, stay within 5 to 50
    days (fast) and 20 to 200 days (slow). *)
Theorem bt_periods_range (fastMAv slowMAv : R) :
  0 <= fastMAv <= 1 -> 0 <= slowMAv <= 1 ->
  (5 <= fst (bt_periods fastMAv slowMAv) <= 50)%Z /\
  (20 <= snd (bt_periods fastMAv slowMAv) <= 200)%Z.
Proof.
  intros Hf Hs. pose proof (decodeFastMA_range _ Hf) as HF.
  pose proof (decodeSlowMA_range _ Hs) as HS.
  unfold bt_periods.
  destruct (Z.geb_spec (decodeFastMA fastMAv) (decodeSlowMA slowMAv)); cbn [fst snd];
    [| lia].
  assert (Hc : (Math_ceil (IZR (decodeFastMA fastMAv) * 0.25) <= 13)%Z).
  { unfold Math_ceil.
    assert (-13 <= Int_part (- (IZR (decodeFastMA fastMAv) * 0.25)))%Z; [| lia].
    apply Int_part_ge. destruct HF as [_ HF]. apply IZR_le in HF. lra. }
  lia.
Qed.

Lemma bt_periods_range_witness :
  0 <= 1 <= 1 /\ (5 <= fst (bt_periods 1 0) <= 50)%Z /\ (20 <= snd (bt_periods 1 0) <= 200)%Z.
Proof. split; [lra | apply bt_periods_range; lra]. Defined.

(** ** Simple moving averages *)

Lemma fold_left_plus (l : list R) : forall acc,
  fold_left (fun s r => s + r) l acc = acc + sum_list l.
Proof.
  unfold sum_list. induction l as [| x l IH]; intros acc; simpl; [lra |].
  rewrite (IH (acc + x)), (IH (0 + x)). lra.
Qed.

Lemma sum_list_cons (x : R) (l : list R) : sum_list (x :: l) = x + sum_list l.
Proof. unfold sum_list at 1. simpl. rewrite fold_left_plus. lra. Qed.

Lemma sum_list_app (l1 l2 : list R) : sum_list (l1 ++ l2) = sum_list l1 + sum_list l2.
Proof. unfold sum_list at 1. rewrite fold_left_app, !fold_left_plus. lra. Qed.

Lemma prefix_from_sum (ps : list R) : forall acc k, (k <= length ps)%nat ->
  nth k (acc :: prefix_from acc ps) 0 = acc + sum_list (firstn k ps).
Proof.
  induction ps as [| p ps IH]; intros acc k Hk.
  - destruct k; [simpl; unfold sum_list; simpl; lra | simpl in Hk; lia].
  - destruct k as [| k]; [simpl; unfold sum_list; simpl; lra |].
    cbn [prefix_from firstn].
    change (nth (S k) (acc :: (acc + p) :: prefix_from (acc + p) ps) 0)
      with (nth k ((acc + p) :: prefix_from (acc + p) ps) 0).
    rewrite IH by (simpl in Hk; lia). rewrite sum_list_cons. lra.
Qed.

(** Entry [i] of [computeSMA prices p], for a positive period. *)
Lemma computeSMA_nth (prices : list R) (p : Z) (i : nat) :
  (1 <= p)%Z -> (i < length prices)%nat ->
  nth_error (computeSMA prices p) i =
  if (Z.of_nat i <? p - 1)%Z then Some None
  else Some (Some (sum_list (firstn (Z.to_nat p) (skipn (S i - Z.to_nat p) prices)) / IZR p)).
Proof.
  intros Hp Hi. unfold computeSMA. rewrite nth_error_map, nth_error_seq.
  destruct (Nat.ltb_spec i (length prices)); [| lia]. cbn [option_map]. cbv zeta. rewrite Nat.add_0_l.
  destruct (Z.ltb_spec (Z.of_nat i) (p - 1)); [reflexivity |].
  do 2 f_equal. unfold Rdiv. f_equal. rewrite Nat.add_1_r.
  set (q := Z.to_nat p). set (m := (S i - q)%nat).
  unfold prefix. rewrite !prefix_from_sum by lia.
  rewrite firstn_skipn_comm. replace (m + q)%nat with (S i) by lia.
  rewrite <- (firstn_skipn m (firstn (S i) prices)) at 1.
  rewrite firstn_firstn, Nat.min_l by lia. rewrite sum_list_app. lra.
Qed.

(** ** Rounding with [toFixed] *)

Lemma Int_part_mono (x y : R) : x <= y -> (Int_part x <= Int_part y)%Z.
Proof. intros H. apply Int_part_ge. destruct (Int_part_bounds x). lra. Qed.

Lemma pow10_pos (d : nat) : 0 < 10 ^ d.
Proof. apply pow_lt. lra. Qed.

(** [toFixed d] is monotone. *)
Lemma toFixed_mono (d : nat) (x y : R) : x <= y -> toFixed d x <= toFixed d y.
Proof.
  intros H. pose proof (pow10_pos d) as Hm. unfold toFixed.
  assert (Hd : forall z : Z, (0 <= z)%Z -> 0 <= IZR z / 10 ^ d)
    by (intros z Hz; apply IZR_le in Hz; apply Rle_mult_inv_pos; lra).
  destruct (Rltb x 0) eqn:Ex, (Rltb y 0) eqn:Ey;
    [apply Rltb_iff in Ex; apply Rltb_iff in Ey | apply Rltb_iff in Ex | | ].
  - assert (Hz : (Int_part (- y * 10 ^ d + / 2) <= Int_part (- x * 10 ^ d + / 2))%Z)
      by (apply Int_part_mono; nra).
    apply IZR_le in Hz. unfold Rdiv.
    apply Ropp_le_contravar, Rmult_le_compat_r; [left; apply Rinv_0_lt_compat |]; lra.
  - assert (H1 : (0 <= Int_part (- x * 10 ^ d + / 2))%Z) by (apply Int_part_ge; nra).
    assert (H2 : (0 <= Int_part (y * 10 ^ d + / 2))%Z).
    { apply Int_part_ge. assert (~ y < 0) by (intros Hy; rewrite Rltb_true in Ey; congruence).
      nra. }
    pose proof (Hd _ H1). pose proof (Hd _ H2). lra.
  - assert (~ x < 0) by (intros Hx; rewrite Rltb_true in Ex; congruence). apply Rltb_iff in Ey. lra.
  - assert (~ x < 0) by (intros Hx; rewrite Rltb_true in Ex; congruence).
    assert (Hz : (Int_part (x * 10 ^ d + / 2) <= Int_part (y * 10 ^ d + / 2))%Z)
      by (apply Int_part_mono; nra).
    apply IZR_le in Hz. unfold Rdiv. apply Rmult_le_compat_r; [left; apply Rinv_0_lt_compat |]; lra.
Qed.

(** Whole numbers are left unchanged by [toFixed d]. *)
Lemma toFixed_int (d : nat) (z : Z) : toFixed d (IZR z) = IZR z.
Proof.
  pose proof (pow10_pos d) as Hm. unfold toFixed.
  assert (Hp : 10 ^ d = IZR (10 ^ Z.of_nat d)) by (rewrite <- pow_IZR; reflexivity).
  destruct (Rltb (IZR z) 0).
  - rewrite (Int_part_eq _ (- z * 10 ^ Z.of_nat d)).
    + rewrite mult_IZR, opp_IZR, <- Hp. field. lra.
    + rewrite mult_IZR, opp_IZR, <- Hp. lra.
  - rewrite (Int_part_eq _ (z * 10 ^ Z.of_nat d)).
    + rewrite mult_IZR, <- Hp. field. lra.
    + rewrite mult_IZR, <- Hp. lra.
Qed.

Lemma toFixed_between (d : nat) (a b : Z) (x : R) :
  IZR a <= x <= IZR b -> IZR a <= toFixed d x <= IZR b.
Proof.
  intros [H1 H2]. rewrite <- (toFixed_int d a), <- (toFixed_int d b).
  split; apply toFixed_mono; assumption.
Qed.

(** ** The loop, field by field *)

Lemma Rltb_false_iff (x y : R) : Rltb x y = false <-> y <= x.
Proof. unfold Rltb. destruct (Rlt_dec x y); split; intros; (lra || discriminate || reflexivity). Qed.

Lemma rebalance_maxDD (equity price tgt : R) (st : bt_state) :
  maxDD (rebalance equity price tgt st) = maxDD st.
Proof. unfold rebalance. split_ifs; reflexivity. Qed.

(** The equity curve gains the bar's date and its cent-rounded
    mark-to-market equity. *)
Lemma bt_step_curve ra init i st bar fo so :
  st_equityCurve (bt_step ra init i st (bar, fo, so)) =
  st_equityCurve st ++ [(date bar, toFixed 2 (cash st + position st * close bar))].
Proof.
  unfold bt_step. destruct fo, so; try reflexivity.
  cbv zeta. destruct (Rleb _ _); [| rewrite rebalance_curve]; reflexivity.
Qed.

Lemma bt_loop_curve_dates ra init xs : forall i st,
  map fst (st_equityCurve (bt_loop ra init i xs st)) =
  map fst (st_equityCurve st) ++ map (fun x => date (fst (fst x))) xs.
Proof.
  induction xs as [| x xs IH]; intros i st; simpl.
  - rewrite app_nil_r. reflexivity.
  - destruct x as [[bar fo] so]. rewrite IH, bt_step_curve, map_app, <- app_assoc. reflexivity.
Qed.

Lemma map_fst_combine {A B} (l : list A) (l' : list B) :
  (length l <= length l')%nat -> map fst (combine l l') = l.
Proof.
  revert l'. induction l as [| a l IH]; intros [| b l'] H; simpl in *; try lia; try reflexivity.
  rewrite IH by lia. reflexivity.
Qed.

Lemma bt_inputs_dates bars f s :
  map (fun x => date (fst (fst x))) (bt_inputs bars f s) = map date bars.
Proof.
  unfold bt_inputs.
  rewrite <- (map_map fst (fun y : OHLCVBar * option R => date (fst y))).
  rewrite map_fst_combine.
  - rewrite <- (map_map fst date), map_fst_combine; [reflexivity |].
    rewrite computeSMA_length, length_map. lia.
  - rewrite length_combine, !computeSMA_length, length_map. lia.
Qed.

(** The drawdown update of one step. *)
Lemma bt_step_maxDD ra init i st bar fo so :
  maxDD (bt_step ra init i st (bar, fo, so)) =
  let equity := cash st + position st * close bar in
  let peak' := if Rltb (peak st) equity then equity else peak st in
  let dd := if Rltb 0 peak' then (peak' - equity) / peak' * 100 else 0 in
  if Rltb (maxDD st) dd then dd else maxDD st.
Proof.
  unfold bt_step. destruct fo, so; try reflexivity.
  cbv zeta. destruct (Rleb _ _); [| rewrite rebalance_maxDD]; reflexivity.
Qed.

Lemma bt_step_maxDD_range ra init i st x :
  0 < close (fst (fst x)) -> 0 <= cash st -> 0 <= position st ->
  0 <= maxDD st <= 100 -> 0 <= maxDD (bt_step ra init i st x) <= 100.
Proof.
  destruct x as [[bar fo] so]. cbn [fst]. intros Hp Hc Hq Hm.
  rewrite bt_step_maxDD. cbv zeta.
  set (e := cash st + position st * close bar).
  assert (He : 0 <= e) by (unfold e; nra).
  set (pk := if Rltb (peak st) e then e else peak st).
  assert (Hpk : e <= pk) by (unfold pk; destruct (Rltb (peak st) e) eqn:E;
                             [lra | apply Rltb_false_iff in E; lra]).
  assert (Hdd : 0 <= (if Rltb 0 pk then (pk - e) / pk * 100 else 0) <= 100).
  { destruct (Rltb 0 pk) eqn:E; [apply Rltb_iff in E | lra].
    assert (0 <= (pk - e) / pk <= 1); [| lra].
    split; [apply Rle_mult_inv_pos; lra |].
    apply (Rmult_le_reg_r pk); [lra |]. unfold Rdiv.
    rewrite Rmult_assoc, Rinv_l by lra. lra. }
  destruct (Rltb (maxDD st) _); lra.
Qed.

Lemma bt_loop_maxDD_range ra init xs : forall i st,
  Forall (fun x => 0 < close (fst (fst x))) xs -> 0 <= cash st -> 0 <= position st ->
  0 <= maxDD st <= 100 -> 0 <= maxDD (bt_loop ra init i xs st) <= 100.
Proof.
  induction xs as [| x xs IH]; intros i st Hf Hc Hq Hm; [exact Hm |].
  inversion Hf as [| ? ? Hx Hxs]; subst. cbn [bt_loop].
  destruct (bt_step_nonneg ra init i st x Hx Hc Hq).
  apply IH; try assumption. apply bt_step_maxDD_range; assumption.
Qed.

Lemma last_pos (l : list R) : Forall (fun x => 0 < x) l -> 0 <= last l 0.
Proof.
  induction 1 as [| x l Hx _ IH]; simpl; [lra |]. destruct l; lra.
Qed.

Lemma bt_final_nonneg bars fv sv ra init :
  Forall (fun b => 0 < close b) bars -> 0 <= init ->
  0 <= cash (bt_final bars fv sv ra init) /\ 0 <= position (bt_final bars fv sv ra init).
Proof.
  intros Hb Hi. unfold bt_final. destruct (bt_periods fv sv) as [f s].
  apply bt_loop_nonneg; cbn; [apply bt_inputs_close, Hb | lra | lra].
Qed.

Lemma winRate_of_range (st : bt_state) : 0 <= winRate_of st <= 100.
Proof.
  unfold winRate_of. destruct (Nat.ltb_spec 0 (wins st + losses st)); [| lra].
  assert (H0 : 0 < INR (wins st + losses st)) by (apply lt_0_INR; lia).
  assert (H1 : INR (wins st) <= INR (wins st + losses st)) by (apply le_INR; lia).
  assert (H2 : 0 <= INR (wins st)) by apply pos_INR.
  assert (0 <= INR (wins st) / INR (wins st + losses st) <= 1); [| lra].
  split; [apply Rle_mult_inv_pos; lra |].
  apply (Rmult_le_reg_r (INR (wins st + losses st))); [lra |]. unfold Rdiv.
  rewrite Rmult_assoc, Rinv_l by lra. lra.
Qed.

Lemma computeFitness_bounds (s r w d : R) : 0 <= computeFitness s r w d <= 100.
Proof.
  unfold computeFitness. apply toFixed_1_range.
  pose proof (Rmax_Rmin_01 (0.40 * ((Rmin (Rmax s (-2)) 4 + 2) / 6) +
      0.30 * ((Rmin (Rmax r (-50)) 150 + 50) / 200) + 0.20 * (w / 100) +
      0.10 * (1 - Rmin (Rmax d 0) 60 / 60))).
  lra.
Qed.

(** ** The result of [runBacktest] *)

(** X6: [runBacktest] returns [null] exactly for fewer than 50 bars; otherwise
    its equity curve has one point per bar, carrying the bars' dates in
    order. *)
Theorem runBacktest_null_and_dates (bars : list OHLCVBar) fastMAv slowMAv riskAversion
    initialCapital :
  (runBacktest bars fastMAv slowMAv riskAversion initialCapital = None <->
   (length bars < 50)%nat) /\
  forall r, runBacktest bars fastMAv slowMAv riskAversion initialCapital = Some r ->
    map fst (equityCurve r) = map date bars.
Proof.
  split.
  - split; [| apply runBacktest_None].
    intros H. destruct (Nat.ltb_spec (length bars) 50) as [| Hl]; [assumption |].
    rewrite runBacktest_unfold in H by exact Hl. discriminate.
  - intros r H. destruct (Nat.ltb_spec (length bars) 50) as [Hl | Hl].
    + rewrite runBacktest_None in H by exact Hl. discriminate.
    + rewrite runBacktest_unfold in H by exact Hl. injection H as <-. cbn [equityCurve].
      unfold bt_final. destruct (bt_periods fastMAv slowMAv) as [f s].
      rewrite bt_loop_curve_dates, bt_inputs_dates. reflexivity.
Qed.

(** X7: with positive closes and a non-negative initial capital, the
    reported maximum drawdown lies in [0, 100] percent. *)
Theorem runBacktest_maxDrawdown_range (bars : list OHLCVBar) fastMAv slowMAv riskAversion
    initialCapital (r : BacktestResult) :
  Forall (fun b => 0 < close b) bars -> 0 <= initialCapital ->
  runBacktest bars fastMAv slowMAv riskAversion initialCapital = Some r ->
  0 <= maxDrawdown r <= 100.
Proof.
  intros Hb Hi H. destruct (Nat.ltb_spec (length bars) 50) as [Hl | Hl].
  { rewrite runBacktest_None in H by exact Hl. discriminate. }
  rewrite runBacktest_unfold in H by exact Hl. injection H as <-. cbn [maxDrawdown].
  apply (toFixed_between 2 0 100).
  unfold bt_final. destruct (bt_periods fastMAv slowMAv) as [f s].
  apply bt_loop_maxDD_range; cbn; [apply bt_inputs_close, Hb | lra | lra | lra].
Qed.

Definition sample_bars : list OHLCVBar :=
  map (fun k => mkBar "d" 1 1 1 (INR k + 1) 0) (seq 0 60).

Lemma sample_bars_pos : Forall (fun b => 0 < close b) sample_bars.
Proof.
  unfold sample_bars. rewrite Forall_map, Forall_forall. intros k _. simpl.
  pose proof (pos_INR k). lra.
Qed.

Lemma sample_bars_length : length sample_bars = 60%nat.
Proof. unfold sample_bars. rewrite length_map, length_seq. reflexivity. Qed.

Lemma runBacktest_maxDrawdown_range_witness :
  exists r, runBacktest sample_bars 0 1 0.5 100000 = Some r /\ 0 <= maxDrawdown r <= 100.
Proof.
  destruct (runBacktest sample_bars 0 1 0.5 100000) as [r |] eqn:E.
  - exists r. split; [reflexivity |].
    apply (runBacktest_maxDrawdown_range sample_bars 0 1 0.5 100000 r sample_bars_pos);
      [lra | exact E].
  - exfalso. rewrite runBacktest_unfold in E; [discriminate | rewrite sample_bars_length; lia].
Defined.

(** X8: with positive closes and a positive initial capital, the reported
    total return is at least -100 percent (the strategy never loses more
    than its capital). *)
Theorem runBacktest_totalReturn_floor (bars : list OHLCVBar) fastMAv slowMAv riskAversion
    initialCapital (r : BacktestResult) :
  Forall (fun b => 0 < close b) bars -> 0 < initialCapital ->
  runBacktest bars fastMAv slowMAv riskAversion initialCapital = Some r ->
  -100 <= totalReturn r.
Proof.
  intros Hb Hi H. destruct (Nat.ltb_spec (length bars) 50) as [Hl | Hl].
  { rewrite runBacktest_None in H by exact Hl. discriminate. }
  rewrite runBacktest_unfold in H by exact Hl. injection H as <-. cbn [totalReturn].
  rewrite <- (toFixed_int 2 (-100)). apply toFixed_mono.
  destruct (bt_final_nonneg bars fastMAv slowMAv riskAversion initialCapital Hb ltac:(lra))
    as [Hc Hq].
  assert (Hl0 : 0 <= last (map close bars) 0) by (apply last_pos; rewrite Forall_map; exact Hb).
  unfold totalReturn_of, finalEquity_of.
  set (fe := cash _ + position _ * last (map close bars) 0).
  assert (Hfe : 0 <= fe) by (unfold fe; nra).
  assert (Hr : -1 <= (fe - initialCapital) / initialCapital).
  { apply (Rmult_le_reg_r initialCapital); [lra |]. unfold Rdiv.
    rewrite Rmult_assoc, Rinv_l by lra. lra. }
  lra.
Qed.

Lemma runBacktest_totalReturn_floor_witness :
  exists r, runBacktest sample_bars 0 1 0.5 100000 = Some r /\ -100 <= totalReturn r.
Proof.
  destruct (runBacktest sample_bars 0 1 0.5 100000) as [r |] eqn:E.
  - exists r. split; [reflexivity |].
    apply (runBacktest_totalReturn_floor sample_bars 0 1 0.5 100000 r sample_bars_pos);
      [lra | exact E].
  - exfalso. rewrite runBacktest_unfold in E; [discriminate | rewrite sample_bars_length; lia].
Defined.

(** X9: the reported win rate lies in [0, 100] percent, and it is 0 when no
    trade was closed. *)
Theorem runBacktest_winRate_range (bars : list OHLCVBar) fastMAv slowMAv riskAversion
    initialCapital (r : BacktestResult) :
  runBacktest bars fastMAv slowMAv riskAversion initialCapital = Some r ->
  0 <= winRate r <= 100 /\ (trades r = 0%nat -> winRate r = 0).
Proof.
  intros H. destruct (Nat.ltb_spec (length bars) 50) as [Hl | Hl].
  { rewrite runBacktest_None in H by exact Hl. discriminate. }
  rewrite runBacktest_unfold in H by exact Hl. injection H as <-. cbn [winRate trades].
  split; [apply (toFixed_between 1 0 100), winRate_of_range |].
  intros H0. unfold winRate_of. rewrite H0. apply (toFixed_int 1 0).
Qed.

Lemma runBacktest_winRate_range_witness :
  exists r, runBacktest flat_bars 0 1 0.5 100000 = Some r /\ 0 <= winRate r <= 100.
Proof.
  destruct (runBacktest flat_bars 0 1 0.5 100000) as [r |] eqn:E.
  - exists r. split; [reflexivity |].
    apply (runBacktest_winRate_range flat_bars 0 1 0.5 100000 r E).
  - exfalso. rewrite runBacktest_unfold in E; [discriminate | unfold flat_bars; rewrite repeat_length; lia].
Defined.

(** X10: the fitness [runBacktest] reports, after the consistency penalty,
    lies in [0, 100]. *)
Theorem runBacktest_fitness_range (bars : list OHLCVBar) fastMAv slowMAv riskAversion
    initialCapital (r : BacktestResult) :
  runBacktest bars fastMAv slowMAv riskAversion initialCapital = Some r ->
  0 <= fitness r <= 100.
Proof.
  intros H. destruct (Nat.ltb_spec (length bars) 50) as [Hl | Hl].
  { rewrite runBacktest_None in H by exact Hl. discriminate. }
  rewrite runBacktest_unfold in H by exact Hl. injection H as <-. cbn [fitness].
  apply (toFixed_between 1 0 100).
  match goal with |- _ <= ?b * consistencyPenalty ?y <= _ =>
    pose proof (computeFitness_bounds _ _ _ _ : 0 <= b <= 100) as Hb;
    assert (Hc : 0 < consistencyPenalty y <= 1)
      by (unfold consistencyPenalty; destruct (Rltb _ _); [lra | destruct (Rltb _ _); lra])
  end.
  nra.
Qed.

Lemma runBacktest_fitness_range_witness :
  exists r, runBacktest flat_bars 0 1 0.5 100000 = Some r /\ 0 <= fitness r <= 100.
Proof.
  destruct (runBacktest flat_bars 0 1 0.5 100000) as [r |] eqn:E.
  - exists r. split; [reflexivity |].
    apply (runBacktest_fitness_range flat_bars 0 1 0.5 100000 r E).
  - exfalso. rewrite runBacktest_unfold in E; [discriminate | unfold flat_bars; rewrite repeat_length; lia].
Defined.

(** X11: [computeFitness] is non-decreasing in the Sharpe ratio, the total
    return and the win rate, and non-increasing in the drawdown. *)
Theorem computeFitness_monotone (s s' r r' w w' d d' : R) :
  s <= s' -> r <= r' -> w <= w' -> d' <= d ->
  computeFitness s r w d <= computeFitness s' r' w' d'.
Proof.
  intros Hs Hr Hw Hd. unfold computeFitness. apply toFixed_mono.
  apply Rmult_le_compat_r; [lra |].
  apply Rle_min_compat_r, Rle_max_compat_r.
  assert (Rmin (Rmax s (-2)) 4 <= Rmin (Rmax s' (-2)) 4)
    by (apply Rle_min_compat_r, Rle_max_compat_r, Hs).
  assert (Rmin (Rmax r (-50)) 150 <= Rmin (Rmax r' (-50)) 150)
    by (apply Rle_min_compat_r, Rle_max_compat_r, Hr).
  assert (Rmin (Rmax d' 0) 60 <= Rmin (Rmax d 0) 60)
    by (apply Rle_min_compat_r, Rle_max_compat_r, Hd).
  lra.
Qed.

Lemma computeFitness_monotone_witness :
  0 <= 1 /\ 0 <= 1 /\ 0 <= 1 /\ 0 <= 1 /\ computeFitness 0 0 0 1 <= computeFitness 1 1 1 0.
Proof. repeat split; try lra. apply computeFitness_monotone; lra. Defined.

(** ** A fully risk-averse genome *)

(** The locals of a run that has not traded. *)
Definition untouched (init : R) (st : bt_state) : Prop :=
  cash st = init /\ position st = 0 /\ currentExposure st = 0 /\
  wins st = 0%nat /\ losses st = 0%nat /\ peak st = init /\ maxDD st = 0.

Lemma targetExposure_one (f s : R) : targetExposure 1 f s = 0.
Proof. unfold targetExposure. destruct (Rltb s f); lra. Qed.

Lemma bt_step_untouched init i st bar fo so :
  0 < init -> untouched init st ->
  untouched init (bt_step 1 init i st (bar, fo, so)) /\
  st_equityCurve (bt_step 1 init i st (bar, fo, so)) =
    st_equityCurve st ++ [(date bar, toFixed 2 init)].
Proof.
  intros Hi (Hc & Hq & He & Hw & Hl & Hp & Hm).
  rewrite bt_step_curve, Hc, Hq, Rmult_0_l, Rplus_0_r. split; [| reflexivity].
  assert (Hpk : (if Rltb (peak st) (cash st + position st * close bar)
                 then cash st + position st * close bar else peak st) = init).
  { rewrite Hc, Hq, Hp, Rmult_0_l, Rplus_0_r. destruct (Rltb init init); reflexivity. }
  assert (Hdd : (if Rltb 0 init then (init - (cash st + position st * close bar)) / init * 100
                 else 0) = 0).
  { rewrite Hc, Hq, Rmult_0_l, Rplus_0_r, Rltb_true by exact Hi. unfold Rdiv. ring. }
  unfold bt_step. destruct fo as [f |], so as [s |]; cbv zeta;
    try (rewrite Hpk, Hdd, Hm; destruct (Rltb 0 0); repeat split; assumption).
  rewrite targetExposure_one, He, Rminus_0_r, Rabs_R0, Rleb_true by lra.
  rewrite Hpk, Hdd, Hm. destruct (Rltb 0 0); repeat split; assumption.
Qed.

Lemma bt_loop_untouched init xs : forall i st,
  0 < init -> untouched init st ->
  untouched init (bt_loop 1 init i xs st) /\
  st_equityCurve (bt_loop 1 init i xs st) =
    st_equityCurve st ++ map (fun x => (date (fst (fst x)), toFixed 2 init)) xs.
Proof.
  induction xs as [| [[bar fo] so] xs IH]; intros i st Hi Hu.
  - rewrite app_nil_r. auto.
  - cbn [bt_loop map fst]. destruct (bt_step_untouched init i st bar fo so Hi Hu) as [Hu' Hc].
    destruct (IH (S i) _ Hi Hu') as [H1 H2]. split; [exact H1 |].
    rewrite H2, Hc, <- app_assoc. reflexivity.
Qed.

(** ** Agent-level backtest *)

Lemma slice_last_length {A} (n : nat) (xs : list A) :
  length (slice_last n xs) = Nat.min (length xs) n.
Proof. unfold slice_last. rewrite length_skipn. lia. Qed.

(** ** Crossover and mutation *)

Lemma clamp01_range (v : R) : 0 <= clamp01 v <= 1.
Proof.
  unfold clamp01. split.
  - apply Rmin_glb; [lra | apply Rmax_l].
  - apply Rmin_l.
Qed.

Lemma clamp01_id (v : R) : 0 <= v <= 1 -> clamp01 v = v.
Proof.
  intros H. unfold clamp01. rewrite Rmax_right by lra. apply Rmin_right. lra.
Qed.

Section Blend.

Variable rng : nat -> R.
Hypothesis rng_range : forall k, 0 <= rng k < 1.

Lemma blend_spec (a b : R) (k : nat) :
  0 <= a <= 1 -> 0 <= b <= 1 ->
  exists v, blend rng a b k = Some (v, S (S k)) /\ 0 <= v <= 1 /\
    Rmin a b - MUT <= v <= Rmax a b + MUT.
Proof.
  intros Ha Hb. unfold blend. cbv beta iota zeta delta [bind random ret].
  eexists. split; [reflexivity |]. split; [apply clamp01_range |].
  pose proof (rng_range k) as H1. pose proof (rng_range (S k)) as H2.
  set (v := a + (b - a) * rng k + (rng (S k) - 0.5) * 2 * MUT).
  assert (Hv : Rmin a b - MUT <= v <= Rmax a b + MUT).
  { unfold v, MUT. unfold Rmin, Rmax.
    destruct (Rle_dec a b); split; nra. }
  assert (Hlo : 0 <= Rmin a b) by (apply Rmin_glb; lra).
  assert (Hhi : Rmax a b <= 1) by (apply Rmax_lub; lra).
  assert (Hlo' : Rmin a b <= 1) by (apply Rle_trans with a; [apply Rmin_l | lra]).
  assert (Hhi' : 0 <= Rmax a b) by (apply Rle_trans with a; [lra | apply Rmax_l]).
  unfold clamp01. split.
  - apply Rmin_glb; [unfold MUT in *; lra |]. apply Rle_trans with v; [lra | apply Rmax_r].
  - destruct (Rle_dec 0 v).
    + rewrite Rmax_right by lra. apply Rle_trans with v; [apply Rmin_r | lra].
    + rewrite Rmax_left by lra. apply Rle_trans with 0; [apply Rmin_r | unfold MUT; lra].
Qed.

End Blend.

(** X20: a genome with [riskAversion = 1] never trades: with a positive
    initial capital its run closes no trade, reports a total return, a win
    rate and a drawdown of 0, and its equity curve stays at the
    (cent-rounded) initial capital. *)
Theorem runBacktest_riskAversion_one (bars : list OHLCVBar) fastMAv slowMAv initialCapital
    (r : BacktestResult) :
  0 < initialCapital ->
  runBacktest bars fastMAv slowMAv 1 initialCapital = Some r ->
  trades r = 0%nat /\ totalReturn r = 0 /\ winRate r = 0 /\ maxDrawdown r = 0 /\
  Forall (fun p => snd p = toFixed 2 initialCapital) (equityCurve r).
Proof.
  intros Hi H. destruct (Nat.ltb_spec (length bars) 50) as [Hl | Hl].
  { rewrite runBacktest_None in H by exact Hl. discriminate. }
  rewrite runBacktest_unfold in H by exact Hl. injection H as <-.
  cbn [trades totalReturn winRate maxDrawdown equityCurve].
  unfold bt_final. destruct (bt_periods fastMAv slowMAv) as [f s].
  assert (Hu0 : untouched initialCapital (init_state initialCapital))
    by (repeat split; reflexivity).
  destruct (bt_loop_untouched initialCapital (bt_inputs bars f s) 0 _ Hi Hu0)
    as [(Hc & Hq & _ & Hw & Hl' & _ & Hm) Hcurve].
  set (st := bt_loop 1 initialCapital 0 (bt_inputs bars f s) (init_state initialCapital))
    in *.
  unfold winRate_of, totalReturn_of, finalEquity_of.
  rewrite Hc, Hq, Hw, Hl', Hm, Rmult_0_l, Rplus_0_r. cbn [Nat.add Nat.ltb Nat.leb].
  replace ((initialCapital - initialCapital) / initialCapital * 100) with (IZR 0)
    by (unfold Rdiv; ring).
  rewrite !toFixed_int. repeat split; try reflexivity.
  rewrite Hcurve. cbn [st_equityCurve init_state app].
  apply Forall_map, Forall_forall. intros x _. reflexivity.
Qed.

Lemma runBacktest_riskAversion_one_witness :
  exists r, runBacktest flat_bars 0 1 1 100000 = Some r /\ trades r = 0%nat /\
    totalReturn r = 0.
Proof.
  destruct (runBacktest flat_bars 0 1 1 100000) as [r |] eqn:E.
  - exists r. split; [reflexivity |].
    destruct (runBacktest_riskAversion_one flat_bars 0 1 100000 r ltac:(lra) E)
      as (H1 & H2 & _). auto.
  - exfalso. rewrite runBacktest_unfold in E; [discriminate | unfold flat_bars; rewrite repeat_length; lia].
Defined.

(** X12: [backtestAgent] returns [null] exactly when the agent's symbol has
    no price series or fewer than 50 bars; otherwise it backtests the last
    730 bars, so its equity curve has [min(n, 730)] points carrying the
    dates of those bars. *)
Theorem backtestAgent_window (agent : AgentGenome) (priceHistory : list (string * list OHLCVBar))
    (sym : string) :
  assetSymbol (assetIdx (Agent.genome agent)) = Some sym ->
  (backtestAgent agent priceHistory = None <->
   match lookup_bars priceHistory sym with
   | None => True
   | Some allBars => (length allBars < 50)%nat
   end) /\
  forall allBars r, lookup_bars priceHistory sym = Some allBars ->
    backtestAgent agent priceHistory = Some r ->
    map fst (equityCurve r) = map date (slice_last BACKTEST_BARS allBars) /\
    length (equityCurve r) = Nat.min (length allBars) BACKTEST_BARS.
Proof.
  intros Hs. unfold backtestAgent. rewrite Hs.
  destruct (lookup_bars priceHistory sym) as [allBars |].
  2: { split; [tauto | intros ? ? Hx; discriminate]. }
  assert (Hrun : (50 <= length allBars)%nat ->
    exists r0, runBacktest (slice_last BACKTEST_BARS allBars) (fastMA (Agent.genome agent))
      (slowMA (Agent.genome agent)) (riskAversion (Agent.genome agent)) 100000 = Some r0 /\
      map fst (equityCurve r0) = map date (slice_last BACKTEST_BARS allBars) /\
      length (equityCurve r0) = Nat.min (length allBars) BACKTEST_BARS).
  { intros Hl. rewrite runBacktest_unfold by (rewrite slice_last_length; unfold BACKTEST_BARS; lia).
    eexists. split; [reflexivity |]. cbn [equityCurve]. split.
    - unfold bt_final. destruct (bt_periods _ _) as [f s].
      rewrite bt_loop_curve_dates, bt_inputs_dates. reflexivity.
    - rewrite bt_final_curve_length, slice_last_length. reflexivity. }
  destruct (Nat.ltb_spec (length allBars) 50) as [Hl | Hl].
  - split; [tauto | intros ? ? _ Hx; discriminate].
  - destruct (Hrun Hl) as (r0 & Hr0 & Hd & Hn). rewrite Hr0. split.
    + split; [discriminate | lia].
    + intros ab r Hab Hr. injection Hab as <-. injection Hr as <-. cbn [equityCurve]. auto.
Qed.

Lemma backtestAgent_window_witness :
  assetSymbol (assetIdx (Agent.genome (sample_agent 1 active))) = Some "BTC"%string /\
  backtestAgent (sample_agent 1 active) [("BTC"%string, [])] = None.
Proof.
  assert (Hs : assetSymbol (assetIdx (Agent.genome (sample_agent 1 active))) = Some "BTC"%string).
  { unfold assetSymbol, decodeAssetIdx, Math_round. cbn.
    rewrite Rmult_0_l, Rplus_0_l. rewrite (Int_part_eq (/ 2) 0) by lra. reflexivity. }
  split; [exact Hs |].
  apply (proj2 (proj1 (backtestAgent_window (sample_agent 1 active) [("BTC"%string, [])] _ Hs))).
  simpl. lia.
Defined.

(** X13: for parents whose genes lie in [0, 1] and draws in [0, 1),
    [crossoverMutate] makes exactly 8 draws and yields genes in [0, 1]; each
    of the three blended genes lies within [MUT = 0.12] of the interval
    spanned by the parents' genes, and the asset gene is one parent's
    (clamped) asset gene or, after a first draw of at least 0.75, the second
    draw. *)
Theorem crossoverMutate_child (rng : nat -> R) (p1 p2 child : SMAGenome) (k k' : nat) :
  (forall j, 0 <= rng j < 1) ->
  0 <= fastMA p1 <= 1 -> 0 <= slowMA p1 <= 1 -> 0 <= riskAversion p1 <= 1 ->
  0 <= fastMA p2 <= 1 -> 0 <= slowMA p2 <= 1 -> 0 <= riskAversion p2 <= 1 ->
  crossoverMutate rng p1 p2 k = Some (child, k') ->
  k' = (8 + k)%nat /\
  0 <= fastMA child <= 1 /\ 0 <= slowMA child <= 1 /\
  0 <= riskAversion child <= 1 /\ 0 <= assetIdx child <= 1 /\
  Rmin (fastMA p1) (fastMA p2) - MUT <= fastMA child <= Rmax (fastMA p1) (fastMA p2) + MUT /\
  Rmin (slowMA p1) (slowMA p2) - MUT <= slowMA child <= Rmax (slowMA p1) (slowMA p2) + MUT /\
  Rmin (riskAversion p1) (riskAversion p2) - MUT <= riskAversion child
    <= Rmax (riskAversion p1) (riskAversion p2) + MUT /\
  (assetIdx child = clamp01 (assetIdx p1) \/ assetIdx child = clamp01 (assetIdx p2) \/
   (0.75 <= rng k /\ assetIdx child = rng (S k))).
Proof.
  intros Hr Hf1 Hs1 Hr1 Hf2 Hs2 Hr2 H.
  unfold crossoverMutate in H. cbv beta iota zeta delta [bind random ret] in H.
  destruct (blend_spec rng Hr (fastMA p1) (fastMA p2) (S (S k)) Hf1 Hf2) as (f & Ef & Hf & Hfb).
  destruct (blend_spec rng Hr (slowMA p1) (slowMA p2) (S (S (S (S k)))) Hs1 Hs2)
    as (s & Es & Hs & Hsb).
  destruct (blend_spec rng Hr (riskAversion p1) (riskAversion p2) (S (S (S (S (S (S k))))))
              Hr1 Hr2) as (ra & Era & Hra & Hrab).
  destruct (Rltb (rng k) 0.75) eqn:Eu.
  - rewrite Ef, Es, Era in H. injection H as <- <-. cbn [fastMA slowMA riskAversion assetIdx].
    repeat split; try lra; try apply clamp01_range.
    destruct (Rltb (rng (S k)) 0.5); auto.
  - rewrite Ef, Es, Era in H. injection H as <- <-. cbn [fastMA slowMA riskAversion assetIdx].
    repeat split; try lra; try apply clamp01_range.
    right. right. apply Rltb_false_iff in Eu. split; [exact Eu |].
    apply clamp01_id. pose proof (Hr (S k)). lra.
Qed.

Definition const_rng (_ : nat) : R := 0.5.

Lemma crossoverMutate_child_witness :
  exists child k', crossoverMutate const_rng sample_genome sample_genome 0%nat = Some (child, k') /\
    0 <= fastMA child <= 1.
Proof.
  assert (Hr : forall j, 0 <= const_rng j < 1) by (intros j; unfold const_rng; lra).
  assert (H01 : 0 <= 0 <= 1) by lra.
  destruct (crossoverMutate const_rng sample_genome sample_genome 0%nat) as [[child k'] |] eqn:E.
  - exists child, k'. split; [reflexivity |].
    apply (crossoverMutate_child const_rng sample_genome sample_genome child 0%nat k' Hr
             H01 H01 H01 H01 H01 H01 E).
  - exfalso. unfold crossoverMutate, blend in E. cbv beta iota zeta delta [bind random ret] in E.
    destruct (Rltb _ _); discriminate.
Defined.

(** ** One generation, in pieces *)

Definition gen_active (agents : list AgentGenome) : list AgentGenome :=
  filter (fun a => negb (is_extinct a)) agents.

Definition gen_newResults (priceHistory : list (string * list OHLCVBar))
    (agents : list AgentGenome) : list (Z * BacktestResult) :=
  rev (flat_map (fun a => match backtestAgent a priceHistory with
                          | Some r => [(Agent.id a, r)]
                          | None => [] end) (gen_active agents)).

Definition gen_backtested (priceHistory : list (string * list OHLCVBar))
    (agents : list AgentGenome) : list AgentGenome :=
  map (backtest_update priceHistory) (gen_active agents).

Definition gen_sorted (priceHistory : list (string * list OHLCVBar))
    (agents : list AgentGenome) : list AgentGenome :=
  sort_desc (nicheSelectFitness (gen_backtested priceHistory agents)
                                (gen_newResults priceHistory agents))
            (gen_backtested priceHistory agents).

(** The callback of [agents.map] that builds [survived] (step 5). *)
Definition survivor (backtested bottom : list AgentGenome) (a : AgentGenome) : AgentGenome :=
  if existsb (fun b => Z.eqb (Agent.id b) (Agent.id a)) bottom then with_status a extinct
  else
    let st := match Agent.status a with newborn => active | s => s end in
    match find (fun b => Z.eqb (Agent.id b) (Agent.id a)) backtested with
    | Some bt => with_status bt st
    | None => with_status a st
    end.

(** The properties of one newborn agent of [rawOffspring]. *)
Definition offspring_spec (topBreed : list AgentGenome) (maxId currentGen : Z)
    (i : nat) (x : AgentGenome) : Prop :=
  Agent.id x = (maxId + Z.of_nat i + 1)%Z /\ Agent.status x = newborn /\
  Agent.generation x = (currentGen + 1)%Z /\
  exists p1 p2, In p1 topBreed /\ In p2 topBreed /\
                Agent.parentIds x = [Agent.id p1; Agent.id p2].

Lemma runGeneration_completed (rng : nat -> R) priceHistory agents currentGen
    allNext culled born :
  runGeneration rng priceHistory agents currentGen = completed allNext culled born ->
  exists raw k,
    mapM (make_offspring rng
            (firstn (Z.to_nat (breed_count (length (gen_sorted priceHistory agents))))
                    (gen_sorted priceHistory agents))
            (maxId_of agents) currentGen)
         (seq 0 (Z.to_nat (cull_count (length (gen_sorted priceHistory agents))))) 0%nat
      = Some (raw, k) /\
    culled = slice_last (Z.to_nat (cull_count (length (gen_sorted priceHistory agents))))
                        (gen_sorted priceHistory agents) /\
    born = map (backtest_update priceHistory) raw /\
    allNext = map (survivor (gen_backtested priceHistory agents) culled) agents ++ born.
Proof.
  intros H. destruct priceHistory as [| p0 ps]; [discriminate |].
  unfold runGeneration, generation_body in H. cbv zeta in H. unfold bind at 1 in H.
  match type of H with
  | match (match ?m 0%nat with _ => _ end) with _ => _ end = _ =>
      destruct (m 0%nat) as [[raw k] |] eqn:E; [| discriminate]
  end.
  unfold ret in H. injection H as <- <- <-.
  exists raw, k. split; [exact E |]. repeat split; reflexivity.
Qed.

Lemma js_index_In {A} (xs : list A) (i : Z) (x : A) : js_index xs i = Some x -> In x xs.
Proof. unfold js_index. destruct (i <? 0)%Z; [discriminate | apply nth_error_In]. Qed.

Lemma make_offspring_spec (rng : nat -> R) topBreed maxId currentGen i k x k' :
  make_offspring rng topBreed maxId currentGen i k = Some (x, k') ->
  offspring_spec topBreed maxId currentGen i x.
Proof.
  unfold make_offspring, pick. cbv beta iota zeta delta [bind random ret throw].
  destruct (js_index topBreed (Math_floor (rng k * INR (length topBreed)))) as [p1 |] eqn:E1;
    [| discriminate].
  destruct (js_index topBreed (Math_floor (rng (S k) * INR (length topBreed)))) as [p2 |] eqn:E2;
    [| discriminate].
  destruct (crossoverMutate rng _ _ _) as [[g k2] |]; [| discriminate].
  intros H. injection H as <- _.
  repeat split. exists p1, p2. repeat split; eapply js_index_In; eassumption.
Qed.

Lemma mapM_make_offspring_spec (rng : nat -> R) topBreed maxId currentGen l : forall k raw k',
  mapM (make_offspring rng topBreed maxId currentGen) l k = Some (raw, k') ->
  Forall2 (offspring_spec topBreed maxId currentGen) l raw.
Proof.
  induction l as [| i l IH]; intros k raw k' H.
  - injection H as <- _. constructor.
  - simpl mapM in H. unfold bind at 1 in H.
    destruct (make_offspring rng topBreed maxId currentGen i k) as [[y k1] |] eqn:E1;
      [| discriminate].
    unfold bind in H.
    destruct (mapM (make_offspring rng topBreed maxId currentGen) l k1) as [[ys k2] |] eqn:E2;
      [| discriminate].
    unfold ret in H. injection H as <- _.
    constructor; [eapply make_offspring_spec; exact E1 | eapply IH; exact E2].
Qed.

Lemma survivor_id backtested bottom a :
  Agent.id (survivor backtested bottom a) = Agent.id a.
Proof.
  unfold survivor. destruct (existsb _ _); [reflexivity |]. cbv zeta.
  destruct (find _ _) as [bt |] eqn:E; [| reflexivity].
  apply find_some in E. destruct E as [_ E]. apply Z.eqb_eq in E. exact E.
Qed.

Lemma maxId_of_ge (agents : list AgentGenome) (z : Z) :
  In z (map Agent.id agents) -> (z <= maxId_of agents)%Z.
Proof.
  unfold maxId_of.
  assert (G : forall l acc, (acc <= fold_left Z.max l acc)%Z /\
                            forall z, In z l -> (z <= fold_left Z.max l acc)%Z).
  { induction l as [| y l IH]; intros acc; simpl; [split; [lia | tauto] |].
    destruct (IH (Z.max acc y)) as [H1 H2]. split; [lia |].
    intros z' [<- | Hz]; [lia | apply H2, Hz]. }
  apply G.
Qed.

Lemma offspring_ids topBreed maxId currentGen l raw :
  Forall2 (offspring_spec topBreed maxId currentGen) l raw ->
  map Agent.id raw = map (fun i => (maxId + Z.of_nat i + 1)%Z) l.
Proof. induction 1 as [| i x l raw [Hx _] _ IH]; simpl; congruence. Qed.

Lemma NoDup_map_inj {A B} (f : A -> B) (l : list A) :
  NoDup l -> (forall x y, In x l -> In y l -> f x = f y -> x = y) -> NoDup (map f l).
Proof.
  induction 1 as [| x l Hx Hl IH]; intros Hf; simpl; constructor.
  - intros Hin. apply in_map_iff in Hin. destruct Hin as (y & Hy & Hyl).
    assert (y = x) by (apply Hf; simpl; auto). subst. contradiction.
  - apply IH. intros a b Ha Hb. apply Hf; simpl; auto.
Qed.

Lemma NoDup_map_eq {A B} (f : A -> B) (l : list A) (x y : A) :
  NoDup (map f l) -> In x l -> In y l -> f x = f y -> x = y.
Proof.
  induction l as [| a l IH]; simpl; [tauto |]. intros Hnd Hx Hy He.
  inversion Hnd as [| ? ? Hn Hd]; subst.
  destruct Hx as [<- | Hx], Hy as [<- | Hy]; auto.
  - exfalso. apply Hn. rewrite He. apply in_map, Hy.
  - exfalso. apply Hn. rewrite <- He. apply in_map, Hx.
Qed.

Lemma In_firstn' {A} (n : nat) (l : list A) (x : A) : In x (firstn n l) -> In x l.
Proof. intros H. rewrite <- (firstn_skipn n l). apply in_or_app. left. exact H. Qed.

Lemma backtest_update_name ph a : Agent.name (backtest_update ph a) = Agent.name a.
Proof. unfold backtest_update. destruct (backtestAgent a ph); reflexivity. Qed.

Lemma backtest_update_genome ph a : Agent.genome (backtest_update ph a) = Agent.genome a.
Proof. unfold backtest_update. destruct (backtestAgent a ph); reflexivity. Qed.

Lemma backtest_update_generation ph a :
  Agent.generation (backtest_update ph a) = Agent.generation a.
Proof. unfold backtest_update. destruct (backtestAgent a ph); reflexivity. Qed.

Lemma backtest_update_parentIds ph a :
  Agent.parentIds (backtest_update ph a) = Agent.parentIds a.
Proof. unfold backtest_update. destruct (backtestAgent a ph); reflexivity. Qed.

Lemma insert_desc_sorted {A} (key : A -> R) (x : A) (l : list A) :
  StronglySorted (fun a b => key b <= key a) l ->
  StronglySorted (fun a b => key b <= key a) (insert_desc key x l).
Proof.
  induction l as [| y l IH]; intros Hs; simpl.
  - repeat constructor.
  - apply StronglySorted_inv in Hs. destruct Hs as [Hl Hy].
    destruct (Rltb (key y) (key x)) eqn:E.
    + apply Rltb_iff in E. constructor; [constructor; assumption |].
      constructor; [lra |]. rewrite Forall_forall in *. intros z Hz. specialize (Hy z Hz). lra.
    + apply Rltb_false_iff in E. constructor; [apply IH, Hl |].
      rewrite Forall_forall in *. intros z Hz.
      apply (Permutation_in _ (insert_desc_perm key x l)) in Hz.
      destruct Hz as [<- | Hz]; [lra | apply Hy, Hz].
Qed.

Lemma sort_desc_sorted {A} (key : A -> R) (l : list A) :
  StronglySorted (fun a b => key b <= key a) (sort_desc key l).
Proof.
  unfold sort_desc.
  assert (G : forall acc, StronglySorted (fun a b => key b <= key a) acc ->
             StronglySorted (fun a b => key b <= key a)
               (fold_left (fun acc x => insert_desc key x acc) l acc)).
  { induction l as [| x l IH]; intros acc H; simpl; [exact H |].
    apply IH, insert_desc_sorted, H. }
  apply G. constructor.
Qed.

Lemma StronglySorted_app_rel {A} (Rel : A -> A -> Prop) (l1 l2 : list A) (x y : A) :
  StronglySorted Rel (l1 ++ l2) -> In x l1 -> In y l2 -> Rel x y.
Proof.
  induction l1 as [| a l1 IH]; simpl; [tauto |]. intros Hs Hx Hy.
  apply StronglySorted_inv in Hs. destruct Hs as [Hs Ha].
  destruct Hx as [<- | Hx]; [| apply IH; assumption].
  rewrite Forall_forall in Ha. apply Ha, in_or_app. right. exact Hy.
Qed.

Lemma Forall2_map_r {A B} (P : A -> B -> Prop) (f : A -> B) (l : list A) :
  Forall (fun a => P a (f a)) l -> Forall2 P l (map f l).
Proof. induction 1; simpl; constructor; assumption. Qed.

Lemma gen_sorted_perm ph agents :
  Permutation (gen_sorted ph agents) (gen_backtested ph agents).
Proof. apply sort_desc_perm. Qed.

(** With price data loaded, draws in [0, 1) and an active agent, a
    generation completes. *)
Lemma runGeneration_completes (rng : nat -> R) priceHistory agents currentGen :
  priceHistory <> [] -> (forall k, 0 <= rng k < 1) ->
  (1 <= length (gen_active agents))%nat ->
  exists allNext culled born,
    runGeneration rng priceHistory agents currentGen = completed allNext culled born.
Proof.
  intros Hph Hrng HN. destruct priceHistory as [| p0 ps]; [contradiction |].
  unfold runGeneration, generation_body. cbv zeta.
  set (sorted := sort_desc _ _).
  assert (Hlen : length sorted = length (gen_active agents)).
  { unfold sorted. rewrite (Permutation_length (sort_desc_perm _ _)), length_map. reflexivity. }
  assert (Htop : firstn (Z.to_nat (breed_count (length sorted))) sorted <> []).
  { unfold breed_count. destruct sorted as [| s0 ss]; [simpl in Hlen; lia |].
    destruct (Z.to_nat (Z.max 2 _)) eqn:E; [lia | discriminate]. }
  destruct (mapM_make_offspring_ok rng Hrng _ (maxId_of agents) currentGen Htop
              (seq 0 (Z.to_nat (cull_count (length sorted)))) 0%nat) as (raw & k' & Hm & _ & _).
  unfold bind at 1. rewrite Hm. unfold ret. eauto.
Qed.

Lemma sample_population_active : (1 <= length (gen_active sample_population))%nat.
Proof. vm_compute. lia. Qed.

Lemma const_rng_range : forall k, 0 <= const_rng k < 1.
Proof. intros k. unfold const_rng. lra. Qed.

Lemma sample_population_ids : NoDup (map Agent.id sample_population).
Proof. vm_compute. repeat constructor; simpl; intuition discriminate. Qed.

(** X14: a completed generation keeps agent ids unique: the offspring get
    the ids [maxId + 1], [maxId + 2], ..., above every existing id. *)
Theorem runGeneration_ids_unique (rng : nat -> R) priceHistory agents currentGen
    allNext culled born :
  NoDup (map Agent.id agents) ->
  runGeneration rng priceHistory agents currentGen = completed allNext culled born ->
  NoDup (map Agent.id allNext).
Proof.
  intros Hids H.
  destruct (runGeneration_completed rng priceHistory agents currentGen allNext culled born H)
    as (raw & k & Hm & _ & -> & ->).
  apply mapM_make_offspring_spec in Hm. apply offspring_ids in Hm.
  rewrite map_app, map_map.
  rewrite (map_ext _ Agent.id (survivor_id _ _)), map_id_backtest_update, Hm.
  apply NoDup_app; [exact Hids | |].
  - apply NoDup_map_inj; [apply seq_NoDup |]. intros x y _ _ He. lia.
  - intros z Hz Hz'. apply maxId_of_ge in Hz. apply in_map_iff in Hz'.
    destruct Hz' as (i & <- & _). lia.
Qed.

Lemma runGeneration_ids_unique_witness :
  exists allNext culled born,
    runGeneration const_rng [("BTC"%string, [])] sample_population 0 =
      completed allNext culled born /\
    NoDup (map Agent.id allNext).
Proof.
  destruct (runGeneration_completes const_rng [("BTC"%string, [])] sample_population 0
              ltac:(discriminate) const_rng_range sample_population_active)
    as (allNext & culled & born & H).
  exists allNext, culled, born. split; [exact H |].
  exact (runGeneration_ids_unique const_rng _ _ _ _ _ _ sample_population_ids H).
Defined.

Lemma Forall2_Forall_r {A B} (P : A -> B -> Prop) (Q : B -> Prop) (l : list A) (l' : list B) :
  Forall2 P l l' -> (forall a b, P a b -> Q b) -> Forall Q l'.
Proof. intros H HPQ. induction H; constructor; eauto. Qed.

(** X15: in a completed generation (agent ids distinct), the first entries
    of [allNext] are the existing agents in their order, each with its id,
    name and genome, and with status either [extinct] or its old status
    with [newborn] promoted to [active]; so an extinct agent stays extinct
    and no existing agent is [newborn] afterwards. *)
Theorem runGeneration_status_transitions (rng : nat -> R) priceHistory agents currentGen
    allNext culled born :
  NoDup (map Agent.id agents) ->
  runGeneration rng priceHistory agents currentGen = completed allNext culled born ->
  Forall2 (fun a s =>
             Agent.id s = Agent.id a /\ Agent.name s = Agent.name a /\
             Agent.genome s = Agent.genome a /\
             (Agent.status s = extinct \/
              Agent.status s = match Agent.status a with newborn => active | x => x end))
          agents (firstn (length agents) allNext).
Proof.
  intros Hids H.
  destruct (runGeneration_completed rng priceHistory agents currentGen allNext culled born H)
    as (raw & k & _ & _ & _ & ->).
  rewrite <- (length_map (survivor (gen_backtested priceHistory agents) culled) agents),
    firstn_app, Nat.sub_diag, firstn_O, app_nil_r, firstn_all.
  apply Forall2_map_r, Forall_forall. intros a Ha. unfold survivor.
  destruct (existsb _ culled).
  { cbn. auto. }
  cbv zeta. destruct (find _ _) as [bt |] eqn:E; [| cbn; auto].
  apply find_some in E. destruct E as [Hbt Hid]. apply Z.eqb_eq in Hid.
  unfold gen_backtested in Hbt. apply in_map_iff in Hbt. destruct Hbt as (a' & <- & Ha').
  rewrite backtest_update_id in Hid.
  assert (a' = a).
  { apply (NoDup_map_eq Agent.id agents); [exact Hids | | exact Ha | exact Hid].
    unfold gen_active in Ha'. apply filter_In in Ha'. apply Ha'. }
  subst a'. cbn [with_status Agent.id Agent.name Agent.genome Agent.status].
  rewrite backtest_update_id, backtest_update_name, backtest_update_genome. auto.
Qed.

Lemma runGeneration_status_transitions_witness :
  exists allNext culled born,
    runGeneration const_rng [("BTC"%string, [])] sample_population 0 =
      completed allNext culled born /\
    length (firstn (length sample_population) allNext) = length sample_population.
Proof.
  destruct (runGeneration_completes const_rng [("BTC"%string, [])] sample_population 0
              ltac:(discriminate) const_rng_range sample_population_active)
    as (allNext & culled & born & H).
  exists allNext, culled, born. split; [exact H |].
  symmetry. apply (Forall2_length (runGeneration_status_transitions const_rng _ _ _ _ _ _
                                     sample_population_ids H)).
Defined.

(** X16: the agents a completed generation culls have the lowest selection
    fitness: every backtested active agent whose id is not among the culled
    has a niche-adjusted selection fitness at least that of every culled
    agent. *)
Theorem runGeneration_culls_lowest (rng : nat -> R) priceHistory agents currentGen
    allNext culled born :
  runGeneration rng priceHistory agents currentGen = completed allNext culled born ->
  forall b a, In b culled -> In a (gen_backtested priceHistory agents) ->
    ~ In (Agent.id a) (map Agent.id culled) ->
    nicheSelectFitness (gen_backtested priceHistory agents) (gen_newResults priceHistory agents) b
    <= nicheSelectFitness (gen_backtested priceHistory agents)
         (gen_newResults priceHistory agents) a.
Proof.
  intros H b a Hb Ha Hna.
  destruct (runGeneration_completed rng priceHistory agents currentGen allNext culled born H)
    as (raw & k & _ & Hc & _ & _).
  set (sorted := gen_sorted priceHistory agents) in *.
  set (m := (length sorted - Z.to_nat (cull_count (length sorted)))%nat).
  assert (Hc' : culled = skipn m sorted) by (rewrite Hc; reflexivity).
  assert (Hs : StronglySorted (fun x y =>
                 nicheSelectFitness (gen_backtested priceHistory agents)
                   (gen_newResults priceHistory agents) y <=
                 nicheSelectFitness (gen_backtested priceHistory agents)
                   (gen_newResults priceHistory agents) x) (firstn m sorted ++ skipn m sorted))
    by (rewrite firstn_skipn; apply sort_desc_sorted).
  apply (StronglySorted_app_rel _ _ _ a b Hs); [| rewrite <- Hc'; exact Hb].
  assert (Ha' : In a sorted)
    by (apply (Permutation_in _ (Permutation_sym (gen_sorted_perm priceHistory agents))), Ha).
  rewrite <- (firstn_skipn m sorted) in Ha'. apply in_app_or in Ha'.
  destruct Ha' as [Ha' | Ha']; [exact Ha' |].
  exfalso. apply Hna. rewrite Hc'. apply in_map, Ha'.
Qed.

Lemma runGeneration_culls_lowest_witness :
  exists allNext culled born,
    runGeneration const_rng [("BTC"%string, [])] sample_population 0 =
      completed allNext culled born /\
    (forall b a, In b culled -> In a (gen_backtested [("BTC"%string, [])] sample_population) ->
       ~ In (Agent.id a) (map Agent.id culled) ->
       nicheSelectFitness (gen_backtested [("BTC"%string, [])] sample_population)
         (gen_newResults [("BTC"%string, [])] sample_population) b
       <= nicheSelectFitness (gen_backtested [("BTC"%string, [])] sample_population)
            (gen_newResults [("BTC"%string, [])] sample_population) a).
Proof.
  destruct (runGeneration_completes const_rng [("BTC"%string, [])] sample_population 0
              ltac:(discriminate) const_rng_range sample_population_active)
    as (allNext & culled & born & H).
  exists allNext, culled, born. split; [exact H |].
  exact (runGeneration_culls_lowest const_rng _ _ _ _ _ _ H).
Defined.

(** X17: the agents a completed generation gives birth to are [newborn], of
    generation [currentGen + 1], numbered [maxId + 1], [maxId + 2], ... in
    order, and each has two parent ids, both ids of agents that were active
    (not extinct) at the start of the generation. *)
Theorem runGeneration_born (rng : nat -> R) priceHistory agents currentGen
    allNext culled born :
  runGeneration rng priceHistory agents currentGen = completed allNext culled born ->
  map Agent.id born = map (fun i => (maxId_of agents + Z.of_nat i + 1)%Z) (seq 0 (length born)) /\
  Forall (fun x =>
            Agent.status x = newborn /\ Agent.generation x = (currentGen + 1)%Z /\
            exists i1 i2, Agent.parentIds x = [i1; i2] /\
              In i1 (map Agent.id (gen_active agents)) /\
              In i2 (map Agent.id (gen_active agents))) born.
Proof.
  intros H.
  destruct (runGeneration_completed rng priceHistory agents currentGen allNext culled born H)
    as (raw & k & Hm & _ & -> & _).
  apply mapM_make_offspring_spec in Hm.
  assert (Hl : length raw = Z.to_nat (cull_count (length (gen_sorted priceHistory agents))))
    by (rewrite <- (Forall2_length Hm); apply length_seq).
  split.
  { rewrite map_id_backtest_update, length_map, Hl. apply (offspring_ids _ _ _ _ _ Hm). }
  assert (Hpar : forall p, In p (firstn (Z.to_nat (breed_count (length (gen_sorted priceHistory agents))))
                                     (gen_sorted priceHistory agents)) ->
                 In (Agent.id p) (map Agent.id (gen_active agents))).
  { intros p Hp. apply In_firstn' in Hp.
    apply (Permutation_in _ (gen_sorted_perm priceHistory agents)) in Hp.
    rewrite <- (map_id_backtest_update priceHistory). apply in_map, Hp. }
  apply Forall_map. clear Hl.
  apply (Forall2_Forall_r _ _ _ _ Hm). intros i x Hx.
  destruct Hx as (_ & Hs & Hg & p1 & p2 & H1 & H2 & Hp).
  rewrite backtest_update_status, backtest_update_generation, backtest_update_parentIds.
  split; [exact Hs |]. split; [exact Hg |].
  exists (Agent.id p1), (Agent.id p2). split; [exact Hp |]. split; apply Hpar; assumption.
Qed.

Lemma runGeneration_born_witness :
  exists allNext culled born,
    runGeneration const_rng [("BTC"%string, [])] sample_population 0 =
      completed allNext culled born /\
    map Agent.id born =
      map (fun i => (maxId_of sample_population + Z.of_nat i + 1)%Z) (seq 0 (length born)).
Proof.
  destruct (runGeneration_completes const_rng [("BTC"%string, [])] sample_population 0
              ltac:(discriminate) const_rng_range sample_population_active)
    as (allNext & culled & born & H).
  exists allNext, culled, born. split; [exact H |].
  exact (proj1 (runGeneration_born const_rng _ _ _ _ _ _ H)).
Defined.

(* ------------------------------------------------------------------ *)
(** ** Portfolio snapshot and trade log (steps 6 and 7 of [runGeneration]) *)

(** [(newResults[a.id] ?? backtestResults[a.id])?.totalReturn ?? a.totalReturn] *)
Definition agent_return (newResults backtestResults : list (Z * BacktestResult))
    (a : AgentGenome) : R :=
  match lookup_result newResults (Agent.id a) with
  | Some r => totalReturn r
  | None =>
      match lookup_result backtestResults (Agent.id a) with
      | Some r => totalReturn r
      | None => Agent.totalReturn a
      end
  end.

(** The portfolio stored by [setPortfolio]: [capital: newCapital],
    [pnl: totalPnl], [pnlPercent: +totalPnlPct.toFixed(2)]. *)
Record Portfolio := mkPortfolio { capital : R; totalPnl : R; pnlPercent : R }.

Definition INITIAL_CAPITAL : R := 100000.

(** Step 6 (lines 321-337), over [activeNext]. *)
Definition portfolio_step (activeNext : list AgentGenome)
    (newResults backtestResults : list (Z * BacktestResult)) : Portfolio :=
  let totalActiveFitness :=
    fold_left (fun s a => s + Rmax (Agent.fitness a) 0.01) activeNext 0 in
  let weightedReturn :=
    fold_left (fun s a =>
                 let w := Rmax (Agent.fitness a) 0.01 / totalActiveFitness in
                 let r := agent_return newResults backtestResults a in
                 s + w * (r / 100)) activeNext 0 in
  let genReturn := Rmax (-0.50) (Rmin weightedReturn 2.00) in
  let newCapital := IZR (Math_round (INITIAL_CAPITAL * (1 + genReturn))) in
  let totalPnl := newCapital - INITIAL_CAPITAL in
  let totalPnlPct := genReturn * 100 in
  mkPortfolio newCapital totalPnl (toFixed 2 totalPnlPct).

Inductive trade_action := buy | sell.

Module Trade.
(** A [TradeRecord] without its [id] and [createdAt]; the [rationale]
    display string is left out. *)
Record TradeRecord := mkTrade {
  agentId : Z; agentName : string; generation : Z; action : trade_action;
  asset : string; entryPrice : R; exitPrice : option R; quantity : R;
  pnl : R; pnlPercent : R }.
End Trade.

Import Trade (TradeRecord, mkTrade).

(** [r.equityCurve.at(-1)?.equity ?? 100_000] *)
Definition last_equity (curve : list (string * R)) : R :=
  match rev curve with
  | (_, e) :: _ => e
  | [] => 100000
  end.

(** Step 7 (lines 340-352). *)
Definition trade_log (activeNext : list AgentGenome)
    (newResults backtestResults : list (Z * BacktestResult)) (currentGen : Z)
    : list TradeRecord :=
  flat_map (fun agent =>
              let r := match lookup_result newResults (Agent.id agent) with
                       | Some r => Some r
                       | None => lookup_result backtestResults (Agent.id agent)
                       end in
              match r with
              | None => []
              | Some r =>
                  let pnl := last_equity (equityCurve r) in
                  [mkTrade (Agent.id agent) (Agent.name agent) (currentGen + 1)
                     (if Rleb 100000 pnl then buy else sell)
                     (asset r) 0 None 1
                     (toFixed 2 (pnl - 100000)) (toFixed 2 (totalReturn r))]
              end)
           (firstn 8 activeNext).

(** ** Re-running the backtests ([loadData] and [refreshPriceData]) *)

(** [agents.map(agent => { const r = backtestAgent(agent, data); ... })]
    with the [btResults] record it fills. *)
Definition rebacktest (priceHistory : list (string * list OHLCVBar))
    (agents : list AgentGenome) : list AgentGenome * list (Z * BacktestResult) :=
  (map (backtest_update priceHistory) agents,
   rev (flat_map (fun a => match backtestAgent a priceHistory with
                           | Some r => [(Agent.id a, r)]
                           | None => [] end) agents)).

(** *** Sums *)

Definition sumR {A} (g : A -> R) (l : list A) : R := fold_right (fun a s => g a + s) 0 l.

Lemma fold_left_sumR {A} (g : A -> R) (l : list A) : forall s0,
  fold_left (fun s a => s + g a) l s0 = s0 + sumR g l.
Proof. induction l as [| a l IH]; intros s0; simpl; [lra |]. rewrite IH. lra. Qed.

Lemma sumR_le {A} (g h : A -> R) (l : list A) :
  (forall a, In a l -> g a <= h a) -> sumR g l <= sumR h l.
Proof.
  induction l as [| a l IH]; intros H; simpl; [lra |].
  pose proof (H a (or_introl eq_refl)). pose proof (IH (fun x Hx => H x (or_intror Hx))). lra.
Qed.

Lemma sumR_pos {A} (g : A -> R) (l : list A) :
  l <> [] -> (forall a, 0 < g a) -> 0 < sumR g l.
Proof.
  destruct l as [| a l]; [contradiction |]. intros _ H. simpl.
  assert (0 <= sumR g l); [| pose proof (H a); lra].
  induction l as [| b l IH]; simpl; [lra |]. pose proof (H b). lra.
Qed.

Lemma Math_round_between (x : R) (lo hi : Z) :
  IZR lo <= x <= IZR hi -> (lo <= Math_round x <= hi)%Z.
Proof.
  intros [H1 H2]. unfold Math_round. split; [apply Int_part_ge | apply Int_part_le]; lra.
Qed.

Lemma Rmax_fitness_pos (a : AgentGenome) : 0 < Rmax (Agent.fitness a) 0.01.
Proof. apply Rlt_le_trans with 0.01; [lra | apply Rmax_r]. Qed.

Lemma sumR_ext_helper {A} (f : A -> R) (T c : R) (l : list A) :
  sumR (fun a => f a / T * c) l = c / T * sumR f l.
Proof. induction l as [| a l IH]; simpl; [ring |]. rewrite IH. unfold Rdiv. ring. Qed.

(** X18: the portfolio snapshot of a generation always has a whole-dollar
    capital between 50,000 and 300,000, a P&L equal to the capital minus
    100,000, and a P&L percentage between -50 and 200. *)
Theorem portfolio_step_bounds (activeNext : list AgentGenome)
    (newResults backtestResults : list (Z * BacktestResult)) :
  let p := portfolio_step activeNext newResults backtestResults in
  (exists z, capital p = IZR z) /\ 50000 <= capital p <= 300000 /\
  totalPnl p = capital p - 100000 /\ -50 <= pnlPercent p <= 200.
Proof.
  cbv zeta. unfold portfolio_step. cbv zeta. cbn [capital totalPnl pnlPercent].
  set (w := fold_left _ activeNext 0).
  assert (Hg : -0.50 <= Rmax (-0.50) (Rmin w 2.00) <= 2.00).
  { split; [apply Rmax_l |]. apply Rmax_lub; [lra | apply Rmin_r]. }
  set (g := Rmax (-0.50) (Rmin w 2.00)) in *.
  assert (Hr : (50000 <= Math_round (INITIAL_CAPITAL * (1 + g)) <= 300000)%Z)
    by (apply Math_round_between; unfold INITIAL_CAPITAL; lra).
  destruct Hr as [Hr1 Hr2]. apply IZR_le in Hr1, Hr2.
  split; [eexists; reflexivity |]. split; [lra |]. split; [unfold INITIAL_CAPITAL; reflexivity |].
  apply (toFixed_between 2 (-50) 200). lra.
Qed.

(** X19: when every active agent's return (in percent) lies between the
    whole numbers [lo] and [hi], with [-50 <= lo] and [hi <= 200], the
    fitness-weighted snapshot has its P&L percentage in [[lo, hi]] and its
    capital in [[100000 + 1000 lo, 100000 + 1000 hi]]. *)
Theorem portfolio_step_weighted (activeNext : list AgentGenome)
    (newResults backtestResults : list (Z * BacktestResult)) (lo hi : Z) :
  activeNext <> [] -> (-50 <= lo)%Z -> (hi <= 200)%Z ->
  (forall a, In a activeNext ->
     IZR lo <= agent_return newResults backtestResults a <= IZR hi) ->
  let p := portfolio_step activeNext newResults backtestResults in
  IZR lo <= pnlPercent p <= IZR hi /\
  IZR (100000 + 1000 * lo) <= capital p <= IZR (100000 + 1000 * hi).
Proof.
  intros Hne Hlo Hhi Hr. cbv zeta. unfold portfolio_step. cbv zeta.
  cbn [capital pnlPercent].
  set (f := fun a : AgentGenome => Rmax (Agent.fitness a) 0.01).
  set (ret_of := agent_return newResults backtestResults).
  rewrite (fold_left_sumR f), Rplus_0_l.
  set (T := sumR f activeNext).
  assert (HT : 0 < T) by (apply sumR_pos; [exact Hne | apply Rmax_fitness_pos]).
  rewrite (fold_left_sumR (fun a => f a / T * (ret_of a / 100))), Rplus_0_l.
  set (w := sumR _ activeNext).
  assert (Hw : IZR lo / 100 <= w <= IZR hi / 100).
  { assert (Hs : forall c, sumR (fun a => f a / T * c) activeNext = c).
    { intros c. rewrite (sumR_ext_helper f T c activeNext). fold T. field. lra. }
    split.
    - rewrite <- (Hs (IZR lo / 100)). apply sumR_le. intros a Ha.
      destruct (Hr a Ha) as [H1 _]. pose proof (Rmax_fitness_pos a).
      assert (0 <= f a / T) by (apply Rle_mult_inv_pos; unfold f; lra).
      apply Rmult_le_compat_l; [assumption | unfold ret_of; lra].
    - rewrite <- (Hs (IZR hi / 100)). apply sumR_le. intros a Ha.
      destruct (Hr a Ha) as [_ H2]. pose proof (Rmax_fitness_pos a).
      assert (0 <= f a / T) by (apply Rle_mult_inv_pos; unfold f; lra).
      apply Rmult_le_compat_l; [assumption | unfold ret_of; lra]. }
  apply IZR_le in Hlo, Hhi.
  assert (Hg : Rmax (-0.50) (Rmin w 2.00) = w).
  { rewrite Rmin_left by lra. apply Rmax_right. lra. }
  rewrite Hg. split.
  - apply toFixed_between. lra.
  - assert (Hc : (100000 + 1000 * lo <= Math_round (INITIAL_CAPITAL * (1 + w))
                  <= 100000 + 1000 * hi)%Z).
    { apply Math_round_between. rewrite !plus_IZR, !mult_IZR. unfold INITIAL_CAPITAL. lra. }
    destruct Hc as [Hc1 Hc2]. apply IZR_le in Hc1, Hc2. lra.
Qed.

(** Two active agents of fitness 10 and 30 whose latest backtests return
    10 % and 30 %: the snapshot return is the weighted [25 %]. *)
Definition weighted_agent (i : Z) (f : R) : AgentGenome :=
  mkAgent i "Alpha Hunter" 0 f active hybrid 0 0 0 0 0 [] sample_genome.

Definition weighted_pair : list AgentGenome :=
  [weighted_agent 1 10; weighted_agent 2 30].

Definition weighted_results : list (Z * BacktestResult) :=
  [(1%Z, mkResult 10 0 0 0 0 10 [] [] 5 20 "BTC");
   (2%Z, mkResult 30 0 0 0 0 30 [] [] 5 20 "BTC")].

Lemma weighted_pair_pnl :
  pnlPercent (portfolio_step weighted_pair weighted_results []) = 25.
Proof.
  unfold portfolio_step, weighted_pair, weighted_agent. cbv zeta.
  cbn [fold_left pnlPercent Agent.fitness].
  rewrite (Rmax_left 10 0.01), (Rmax_left 30 0.01) by lra.
  unfold agent_return, weighted_results, lookup_result. cbn.
  match goal with |- toFixed 2 (Rmax _ (Rmin ?w _) * 100) = _ =>
    replace w with (1 / 4) by (field; lra) end.
  rewrite (Rmin_left (1 / 4) 2.00), (Rmax_right (-0.50) (1 / 4)) by lra.
  replace (1 / 4 * 100) with (IZR 25) by lra. apply toFixed_int.
Qed.

Lemma portfolio_step_weighted_witness :
  weighted_pair <> [] /\ (-50 <= 10)%Z /\ (30 <= 200)%Z /\
  (forall a, In a weighted_pair ->
     IZR 10 <= agent_return weighted_results [] a <= IZR 30) /\
  IZR 10 <= pnlPercent (portfolio_step weighted_pair weighted_results []) <= IZR 30 /\
  pnlPercent (portfolio_step weighted_pair weighted_results []) = 25.
Proof.
  assert (Hr : forall a, In a weighted_pair ->
            IZR 10 <= agent_return weighted_results [] a <= IZR 30).
  { intros a [<- | [<- | []]]; unfold agent_return; cbn; lra. }
  split; [discriminate |]. split; [lia |]. split; [lia |]. split; [exact Hr |].
  split; [| exact weighted_pair_pnl].
  exact (proj1 (portfolio_step_weighted weighted_pair weighted_results [] 10 30
                  ltac:(discriminate) ltac:(lia) ltac:(lia) Hr)).
Defined.

Lemma trade_log_entries (newResults backtestResults : list (Z * BacktestResult))
    (currentGen : Z) (l : list AgentGenome) :
  let log := flat_map (fun agent =>
              let r := match lookup_result newResults (Agent.id agent) with
                       | Some r => Some r
                       | None => lookup_result backtestResults (Agent.id agent)
                       end in
              match r with
              | None => []
              | Some r =>
                  let pnl := last_equity (equityCurve r) in
                  [mkTrade (Agent.id agent) (Agent.name agent) (currentGen + 1)
                     (if Rleb 100000 pnl then buy else sell)
                     (asset r) 0 None 1
                     (toFixed 2 (pnl - 100000)) (toFixed 2 (totalReturn r))]
              end) l in
  map Trade.agentId log =
    map Agent.id (filter (fun a => match lookup_result newResults (Agent.id a) with
                                   | Some _ => true
                                   | None => match lookup_result backtestResults (Agent.id a) with
                                             | Some _ => true | None => false end
                                   end) l) /\
  Forall (fun t => Trade.generation t = (currentGen + 1)%Z /\ Trade.entryPrice t = 0 /\
                   Trade.exitPrice t = None /\ Trade.quantity t = 1 /\
                   (Trade.action t = buy -> 0 <= Trade.pnl t) /\
                   (Trade.action t = sell -> Trade.pnl t <= 0)) log.
Proof.
  cbv zeta. induction l as [| a l [IH1 IH2]]; [split; [reflexivity | constructor] |].
  cbn [flat_map filter].
  destruct (lookup_result newResults (Agent.id a)) as [r |];
    [| destruct (lookup_result backtestResults (Agent.id a)) as [r |]];
    cbn [app map]; try (split; assumption).
  all: split; [f_equal; exact IH1 |]; constructor; [| exact IH2].
  all: cbn [Trade.generation Trade.entryPrice Trade.exitPrice Trade.quantity Trade.action Trade.pnl].
  all: repeat split; try reflexivity.
  all: destruct (Rleb 100000 (last_equity (equityCurve r))) eqn:E; intros Hx; try discriminate.
  all: try (apply Rle_trans with (toFixed 2 (IZR 0)); [rewrite toFixed_int; lra |];
            apply toFixed_mono; unfold Rleb in E; destruct (Rle_dec _ _); [lra | discriminate]).
  all: apply Rle_trans with (toFixed 2 (IZR 0)); [| rewrite toFixed_int; lra];
       apply toFixed_mono; unfold Rleb in E; destruct (Rle_dec _ _); [discriminate | lra].
Qed.

(** X21: the trade log of a generation has one record for each of the
    first 8 active agents that has a backtest result (in
    [newResults] or else [backtestResults]), in order, so at most 8 records;
    each record is of generation [currentGen + 1] with entry price 0, no
    exit price and quantity 1, and a [buy] carries a P&L of at least 0, a
    [sell] a P&L of at most 0. *)
Theorem trade_log_spec (activeNext : list AgentGenome)
    (newResults backtestResults : list (Z * BacktestResult)) (currentGen : Z) :
  let log := trade_log activeNext newResults backtestResults currentGen in
  (length log <= 8)%nat /\
  map Trade.agentId log =
    map Agent.id (filter (fun a => match lookup_result newResults (Agent.id a) with
                                   | Some _ => true
                                   | None => match lookup_result backtestResults (Agent.id a) with
                                             | Some _ => true | None => false end
                                   end) (firstn 8 activeNext)) /\
  Forall (fun t => Trade.generation t = (currentGen + 1)%Z /\ Trade.entryPrice t = 0 /\
                   Trade.exitPrice t = None /\ Trade.quantity t = 1 /\
                   (Trade.action t = buy -> 0 <= Trade.pnl t) /\
                   (Trade.action t = sell -> Trade.pnl t <= 0)) log.
Proof.
  unfold trade_log. cbv zeta.
  destruct (trade_log_entries newResults backtestResults currentGen (firstn 8 activeNext))
    as [H1 H2].
  cbv zeta in H1, H2.
  split; [| split; assumption].
  rewrite <- (length_map Trade.agentId), H1, length_map.
  etransitivity; [apply filter_length_le |]. rewrite length_firstn. lia.
Qed.

Lemma in_results (g : AgentGenome -> option BacktestResult) (agents : list AgentGenome)
    (p : Z * BacktestResult) :
  In p (flat_map (fun a => match g a with Some r => [(Agent.id a, r)] | None => [] end) agents) ->
  exists b, In b agents /\ g b = Some (snd p) /\ fst p = Agent.id b.
Proof.
  intros H. apply in_flat_map in H. destruct H as (b & Hb & Hp).
  destruct (g b) as [r |] eqn:E; [| destruct Hp].
  destruct Hp as [<- | []]. exists b. auto.
Qed.

Lemma lookup_results (g : AgentGenome -> option BacktestResult) (agents : list AgentGenome)
    (a : AgentGenome) :
  NoDup (map Agent.id agents) -> In a agents ->
  lookup_result (rev (flat_map (fun a => match g a with Some r => [(Agent.id a, r)]
                                                  | None => [] end) agents)) (Agent.id a) = g a.
Proof.
  intros Hids Ha. unfold lookup_result.
  set (L := flat_map _ agents).
  destruct (find (fun p => Z.eqb (fst p) (Agent.id a)) (rev L)) as [p |] eqn:E.
  - apply find_some in E. destruct E as [Hp He]. apply Z.eqb_eq in He.
    apply in_rev, in_results in Hp. destruct Hp as (b & Hb & Hg & Hk).
    assert (b = a) by (apply (NoDup_map_eq Agent.id agents); auto; congruence).
    subst b. cbn. rewrite Hg. reflexivity.
  - destruct (g a) as [r |] eqn:Eg; [| reflexivity]. exfalso.
    assert (Hin : In (Agent.id a, r) (rev L)).
    { apply in_rev. rewrite rev_involutive. unfold L. apply in_flat_map. exists a.
      rewrite Eg. simpl. auto. }
    pose proof (find_none _ _ E _ Hin) as Hn. cbn in Hn. rewrite Z.eqb_refl in Hn. discriminate.
Qed.

Lemma runBacktest_fitness_in_range bars fv sv ra init r :
  runBacktest bars fv sv ra init = Some r -> 0 <= fitness r <= 100.
Proof.
  intros H. destruct (Nat.ltb_spec (length bars) 50) as [Hl | Hl].
  { rewrite runBacktest_None in H by exact Hl. discriminate. }
  rewrite runBacktest_unfold in H by exact Hl. injection H as <-. cbn [fitness].
  apply (toFixed_between 1 0 100).
  match goal with |- _ <= ?b * consistencyPenalty ?y <= _ =>
    pose proof (computeFitness_bounds _ _ _ _ : 0 <= b <= 100) as Hb;
    assert (Hc : 0 < consistencyPenalty y <= 1)
      by (unfold consistencyPenalty; destruct (Rltb _ _); [lra | destruct (Rltb _ _); lra])
  end.
  nra.
Qed.

Lemma backtestAgent_fitness agent ph r :
  backtestAgent agent ph = Some r -> 0 <= fitness r <= 100.
Proof.
  unfold backtestAgent. destruct (assetSymbol _); [| discriminate].
  destruct (lookup_bars _ _); [| discriminate]. destruct (_ <? 50)%nat; [discriminate |].
  destruct (runBacktest _ _ _ _ _) as [r0 |] eqn:E; [| discriminate].
  intros H. injection H as <-. cbn [fitness]. exact (runBacktest_fitness_in_range _ _ _ _ _ _ E).
Qed.

(** X22: re-running the backtests over the agents (on loading and on a
    price refresh; step 1 of [runGeneration] does the same over the active
    agents) keeps each agent's id, name, status and genome; for distinct
    ids, [btResults[a.id]] is the agent's backtest result, and the agent's
    fitness becomes that result's fitness, in [0, 100], or stays as it was
    when the backtest returns [null]. *)
Theorem rebacktest_spec (priceHistory : list (string * list OHLCVBar))
    (agents : list AgentGenome) :
  NoDup (map Agent.id agents) ->
  Forall2 (fun a u =>
             Agent.id u = Agent.id a /\ Agent.name u = Agent.name a /\
             Agent.status u = Agent.status a /\ Agent.genome u = Agent.genome a /\
             lookup_result (snd (rebacktest priceHistory agents)) (Agent.id a) =
               backtestAgent a priceHistory /\
             match backtestAgent a priceHistory with
             | Some r => Agent.fitness u = fitness r /\ 0 <= Agent.fitness u <= 100
             | None => Agent.fitness u = Agent.fitness a
             end)
          agents (fst (rebacktest priceHistory agents)).
Proof.
  intros Hids. cbn [fst snd rebacktest]. apply Forall2_map_r, Forall_forall. intros a Ha.
  rewrite backtest_update_id, backtest_update_name, backtest_update_status,
    backtest_update_genome.
  repeat split; try reflexivity.
  - apply (lookup_results (fun a => backtestAgent a priceHistory)); assumption.
  - unfold backtest_update. destruct (backtestAgent a priceHistory) as [r |] eqn:E;
      [| reflexivity].
    cbn [apply_result Agent.fitness]. split; [reflexivity | exact (backtestAgent_fitness _ _ _ E)].
Qed.

Lemma rebacktest_spec_witness :
  NoDup (map Agent.id sample_population) /\
  length (fst (rebacktest [] sample_population)) = length sample_population.
Proof.
  split; [exact sample_population_ids |].
  symmetry. exact (Forall2_length (rebacktest_spec [] sample_population sample_population_ids)).
Defined.
